(** * gmail.py: label export to a spreadsheet

    A shallow embedding of [gmail.py] and the properties of its text
    normalisation (MIME walk, base64 / UTF-8 decoding, HTML stripping),
    of its header lookup, of its pagination loop and of its per-message
    error handling.

    Conventions.
    - A Python [str] is the list of its code points ([list N]); a Python
      [bytes] is a list of numbers below 256.
    - A Python dict as the provider returns it is a record whose fields are
      [option]s: [None] is an absent key, and [d.get(k, dflt)] is
      [from_key dflt].
    - A function that can raise returns a [result]; a function that talks
      to the remote services runs in the monad [io]. *)

From Stdlib Require Import String Ascii DecimalString.
From Stdlib Require Import List NArith ZArith Arith Bool Lia Zify.
Import ListNotations.

Set Implicit Arguments.

(* ===================================================================== *)
(** * Strings *)
(* ===================================================================== *)

(** A Python [str]: the sequence of its code points. *)
Definition str := list N.

(** A Python [bytes] value. *)
Definition bytes := list N.

(** The code points of an ASCII literal. *)
Fixpoint lit (s : string) : str :=
  match s with
  | EmptyString => []
  | String a rest => N_of_ascii a :: lit rest
  end.

(** [a == b] on strings. *)
Fixpoint str_eqb (a b : str) : bool :=
  match a, b with
  | [], [] => true
  | x :: a', y :: b' => N.eqb x y && str_eqb a' b'
  | _, _ => false
  end.

(** [s.startswith(prefix)]. *)
Fixpoint startswith (s prefix : str) : bool :=
  match prefix, s with
  | [], _ => true
  | x :: prefix', y :: s' => N.eqb x y && startswith s' prefix'
  | _ :: _, [] => false
  end.

(** Truth value of a string: [bool(s)]. *)
Definition nonempty (s : str) : bool :=
  match s with [] => false | _ :: _ => true end.

(** Truth value of [d.get(k)] when the value, if present, is a string:
    [None] and [""] are both false. *)
Definition truthy (o : option str) : bool :=
  match o with Some s => nonempty s | None => false end.

(** [d.get(k, dflt)]. *)
Definition from_key {A : Type} (dflt : A) (o : option A) : A :=
  match o with Some a => a | None => dflt end.

(** [a or b] on strings. *)
Definition str_or (a b : str) : str := if nonempty a then a else b.

(** [Py_UNICODE_ISSPACE]: what [str.strip()] removes and what [\s] matches
    in a [str] pattern. *)
Definition isspace (c : N) : bool :=
  ((9 <=? c) && (c <=? 13) || (28 <=? c) && (c <=? 32)
   || (c =? 133) || (c =? 160) || (c =? 5760)
   || (8192 <=? c) && (c <=? 8202)
   || (c =? 8232) || (c =? 8233) || (c =? 8239) || (c =? 8287)
   || (c =? 12288))%N.

(** [s.lstrip()]. *)
Fixpoint lstrip (s : str) : str :=
  match s with
  | [] => []
  | c :: s' => if isspace c then lstrip s' else s
  end.

(** [s.rstrip()]. *)
Fixpoint rstrip (s : str) : str :=
  match s with
  | [] => []
  | c :: s' =>
      match rstrip s' with
      | [] => if isspace c then [] else [c]
      | r => c :: r
      end
  end.

(** [s.strip()]. *)
Definition strip (s : str) : str := rstrip (lstrip s).

(* ===================================================================== *)
(** * Exceptions *)
(* ===================================================================== *)

(** The exceptions the program can meet.  [HttpError] carries the text
    that [str(e)] gives. *)
Inductive exn : Type :=
| HttpError (detail : str)
| RuntimeError (detail : str)
| BinasciiError
| UnicodeEncodeError.

Inductive result (A : Type) : Type :=
| Ok (a : A)
| Raise (e : exn).
Arguments Ok {A} a.
Arguments Raise {A} e.

Definition rbind {A B : Type} (r : result A) (k : A -> result B) : result B :=
  match r with
  | Ok a => k a
  | Raise e => Raise e
  end.

Declare Scope result_scope.
Delimit Scope result_scope with result.
Notation "x <- r ;; k" := (rbind r (fun x => k))
  (at level 61, r at next level, right associativity) : result_scope.

(* ===================================================================== *)
(** * Header lookup *)
(* ===================================================================== *)

(** One entry of [payload["headers"]]: a dict with keys ["name"] and
    ["value"]. *)
Record header : Type := Header {
  h_name : option str;
  h_value : option str
}.

Section HeaderLookup.

(** [str.lower()]: the Unicode case tables are the interpreter's. *)
Variable lower : str -> str.

(** [h.get("name", "").lower() == name.lower()]. *)
Definition header_matches (name : str) (h : header) : bool :=
  str_eqb (lower (from_key [] (h_name h))) (lower name).

(** [get_header(payload_headers, name)]. *)
Fixpoint get_header (payload_headers : list header) (name : str) : str :=
  match payload_headers with
  | [] => []
  | h :: rest =>
      if header_matches name h
      then from_key [] (h_value h)
      else get_header rest name
  end.

End HeaderLookup.

(** [str.lower()] on the ASCII range, for concrete runs. *)
Definition ascii_lower (s : str) : str :=
  map (fun c => if (65 <=? c) && (c <=? 90) then c + 32 else c)%N s.

(* ===================================================================== *)
(** * Base64 and UTF-8: the interpreter's codecs *)
(* ===================================================================== *)

Module Codec.

Local Open Scope N_scope.
Local Open Scope result_scope.

(** A lone surrogate cannot be encoded. *)
Definition is_surrogate (c : N) : bool := (0xD800 <=? c) && (c <=? 0xDFFF).

(** The UTF-8 bytes of one code point, as the interpreter's encoder
    writes them. *)
Definition encode_char (c : N) : bytes :=
  if c <? 0x80 then [c]
  else if c <? 0x800 then
    [N.lor 0xC0 (N.shiftr c 6); N.lor 0x80 (N.land c 0x3F)]
  else if c <? 0x10000 then
    [N.lor 0xE0 (N.shiftr c 12);
     N.lor 0x80 (N.land (N.shiftr c 6) 0x3F);
     N.lor 0x80 (N.land c 0x3F)]
  else
    [N.lor 0xF0 (N.shiftr c 18);
     N.lor 0x80 (N.land (N.shiftr c 12) 0x3F);
     N.lor 0x80 (N.land (N.shiftr c 6) 0x3F);
     N.lor 0x80 (N.land c 0x3F)].

(** The bytes of a whole string, with no check. *)
Definition utf8_bytes (s : str) : bytes := flat_map encode_char s.

(** [s.encode("utf-8")]: strict, a surrogate raises. *)
Definition encode_utf8 (s : str) : result bytes :=
  if existsb is_surrogate s then Raise UnicodeEncodeError
  else Ok (utf8_bytes s).

(** [table_a2b_base64] after [_urlsafe_decode_translation]: the value of
    a base64 digit, with [-] read as [+] and [_] as [/]; [None] for a
    byte outside the alphabet. *)
Definition urlsafe_digit (b : N) : option N :=
  if (65 <=? b) && (b <=? 90) then Some (b - 65)
  else if (97 <=? b) && (b <=? 122) then Some (b - 71)
  else if (48 <=? b) && (b <=? 57) then Some (b + 4)
  else if (b =? 43) || (b =? 45) then Some 62
  else if (b =? 47) || (b =? 95) then Some 63
  else None.

(** [binascii.a2b_base64] in its default, non-strict mode: bytes outside
    the alphabet are skipped, a pad that completes a quad ends the input,
    and a quad left open at the end of the input raises. *)
Fixpoint a2b_base64 (ascii : bytes) (quad_pos : nat) (leftchar : N)
         (pads : nat) (bin : bytes) : result bytes :=
  match ascii with
  | [] =>
      match quad_pos with
      | O => Ok bin
      | _ => Raise BinasciiError
      end
  | this_ch :: rest =>
      if this_ch =? 61 then
        if (2 <=? quad_pos)%nat then
          if (4 <=? quad_pos + S pads)%nat then Ok bin
          else a2b_base64 rest quad_pos leftchar (S pads) bin
        else a2b_base64 rest quad_pos leftchar pads bin
      else
        match urlsafe_digit this_ch with
        | None => a2b_base64 rest quad_pos leftchar pads bin
        | Some d =>
            match quad_pos with
            | 0%nat => a2b_base64 rest 1 d 0 bin
            | 1%nat =>
                a2b_base64 rest 2 (N.land d 0x0F) 0
                  (bin ++ [N.lor (N.shiftl leftchar 2) (N.shiftr d 4)])
            | 2%nat =>
                a2b_base64 rest 3 (N.land d 0x03) 0
                  (bin ++ [N.lor (N.shiftl leftchar 4) (N.shiftr d 2)])
            | _ =>
                a2b_base64 rest 0 0 0
                  (bin ++ [N.lor (N.shiftl leftchar 6) d])
            end
        end
  end.

(** [base64.urlsafe_b64decode(s)] for a [bytes] argument. *)
Definition urlsafe_b64decode (s : bytes) : result bytes :=
  a2b_base64 s 0 0 0 [].

(** The error handlers of [bytes.decode]. *)
Inductive errors : Type := Ignore | Replace.

(** What a handler leaves in the output for one undecodable range. *)
Definition on_error (h : errors) (rest : str) : str :=
  match h with
  | Ignore => rest
  | Replace => 0xFFFD :: rest
  end.

Definition is_continuation (b : N) : bool := (0x80 <=? b) && (b <? 0xC0).

(** [bytes.decode("utf-8", errors=h)].  The decoder accepts the shortest
    encodings of the scalar values only; what it rejects is handed to the
    handler one maximal subpart at a time (the lead byte alone, or the
    lead with the continuation bytes that were still acceptable), and an
    incomplete sequence at the end of the input as one range. *)
Fixpoint decode_utf8 (h : errors) (s : bytes) : str :=
  match s with
  | [] => []
  | ch :: s1 =>
      if ch <? 0x80 then ch :: decode_utf8 h s1
      else if ch <? 0xC2 then on_error h (decode_utf8 h s1)
      else if ch <? 0xE0 then
        match s1 with
        | [] => on_error h []
        | ch2 :: s2 =>
            if negb (is_continuation ch2) then on_error h (decode_utf8 h s1)
            else (N.shiftl ch 6 + ch2 - (N.shiftl 0xC0 6 + 0x80))
                   :: decode_utf8 h s2
        end
      else if ch <? 0xF0 then
        match s1 with
        | [] => on_error h []
        | ch2 :: s2 =>
            if negb (is_continuation ch2)
               || (if ch2 <? 0xA0 then ch =? 0xE0 else ch =? 0xED)
            then on_error h (decode_utf8 h s1)
            else
              match s2 with
              | [] => on_error h []
              | ch3 :: s3 =>
                  if negb (is_continuation ch3)
                  then on_error h (decode_utf8 h s2)
                  else (N.shiftl ch 12 + N.shiftl ch2 6 + ch3
                        - (N.shiftl 0xE0 12 + N.shiftl 0x80 6 + 0x80))
                         :: decode_utf8 h s3
              end
        end
      else if ch <? 0xF5 then
        match s1 with
        | [] => on_error h []
        | ch2 :: s2 =>
            if negb (is_continuation ch2)
               || (if ch2 <? 0x90 then ch =? 0xF0 else ch =? 0xF4)
            then on_error h (decode_utf8 h s1)
            else
              match s2 with
              | [] => on_error h []
              | ch3 :: s3 =>
                  if negb (is_continuation ch3)
                  then on_error h (decode_utf8 h s2)
                  else
                    match s3 with
                    | [] => on_error h []
                    | ch4 :: s4 =>
                        if negb (is_continuation ch4)
                        then on_error h (decode_utf8 h s3)
                        else (N.shiftl ch 18 + N.shiftl ch2 12
                              + N.shiftl ch3 6 + ch4
                              - (N.shiftl 0xF0 18 + N.shiftl 0x80 12
                                 + N.shiftl 0x80 6 + 0x80))
                               :: decode_utf8 h s4
                    end
              end
        end
      else on_error h (decode_utf8 h s1)
  end.

End Codec.

(** [decode_part(data_b64)]. *)
Definition decode_part (data_b64 : str) : result str :=
  (raw <- Codec.encode_utf8 data_b64 ;;
   decoded <- Codec.urlsafe_b64decode raw ;;
   Ok (Codec.decode_utf8 Codec.Ignore decoded))%result.

(** The same with the handler [errors="replace"], for comparison. *)
Definition decode_part_replacing (data_b64 : str) : result str :=
  (raw <- Codec.encode_utf8 data_b64 ;;
   decoded <- Codec.urlsafe_b64decode raw ;;
   Ok (Codec.decode_utf8 Codec.Replace decoded))%result.

(* ===================================================================== *)
(** * Regular expressions: the part of [re] the program uses *)
(* ===================================================================== *)

Module Re.

(** One-character items. *)
Inductive item : Type :=
| Chr (c : N)            (* a literal character *)
| Dot                    (* [.] *)
| Whitespace             (* [\s] *)
| OneOf (cs : list N).   (* [[...]] *)

(** Patterns.  A quantifier applies to a one-character item, which is all
    the program's patterns need; [max = None] is no upper bound. *)
Inductive regex : Type :=
| Eps
| Item (i : item)
| Repeat (i : item) (min : nat) (max : option nat) (greedy : bool)
| Cat (r1 r2 : regex)
| Alt (r1 r2 : regex)
| Group (n : nat) (r : regex)
| Backref (n : nat).

(** The inline flags [(?i)] and [(?s)]. *)
Record flags : Type := Flags { ignorecase : bool; dotall : bool }.

(** [sre_lower_unicode], on the code points that reach a letter of the
    program's patterns: the ASCII capitals, and U+0130 and U+212A, the
    only other code points whose lower case is an ASCII letter. *)
Definition tolower (c : N) : N :=
  (if (65 <=? c) && (c <=? 90) then c + 32
   else if c =? 0x130 then 0x69
   else if c =? 0x212A then 0x6B
   else c)%N.

(** [_equivalences] of the pattern compiler, for the same letters: the
    other lower-case forms a letter also stands for under [(?i)]. *)
Definition fixes (lo : N) : list N :=
  (if lo =? 0x69 then [0x131]
   else if lo =? 0x131 then [0x69]
   else if lo =? 0x73 then [0x17F]
   else if lo =? 0x17F then [0x73]
   else [])%N.

(** A literal of the pattern against a character of the text. *)
Definition chr_matches (f : flags) (x c : N) : bool :=
  if ignorecase f
  then N.eqb (tolower c) (tolower x)
       || existsb (N.eqb (tolower c)) (fixes (tolower x))
  else N.eqb c x.

Definition item_matches (f : flags) (i : item) (c : N) : bool :=
  match i with
  | Chr x => chr_matches f x c
  | Dot => dotall f || negb (N.eqb c 10)
  | Whitespace => isspace c
  | OneOf cs => existsb (fun x => chr_matches f x c) cs
  end.

(** The text of the groups matched so far, latest first. *)
Definition captures := list (nat * str).

Fixpoint group_text (n : nat) (caps : captures) : option str :=
  match caps with
  | [] => None
  | (m, g) :: rest => if Nat.eqb m n then Some g else group_text n rest
  end.

(** A back-reference: the text of the group again, compared character by
    character in lower case under [(?i)]. *)
Fixpoint match_backref (f : flags) (g s : str) : option str :=
  match g, s with
  | [], _ => Some s
  | x :: g', c :: s' =>
      if (if ignorecase f then N.eqb (tolower c) (tolower x) else N.eqb c x)
      then match_backref f g' s'
      else None
  | _ :: _, [] => None
  end.

Definition may_take (max : option nat) : bool :=
  match max with Some O => false | _ => true end.

Definition taken (max : option nat) : option nat :=
  match max with Some m => Some (pred m) | None => None end.

Section Matcher.

Variable A : Type.
Variable f : flags.

(** A quantified item, with backtracking into the continuation [k]: a
    greedy one takes a further character first, a lazy one tries the
    rest of the pattern first. *)
Fixpoint repeat_item (i : item) (min : nat) (max : option nat)
         (greedy : bool) (s : str) (k : str -> option A) : option A :=
  match min with
  | S min' =>
      match s with
      | c :: s' =>
          if may_take max && item_matches f i c
          then repeat_item i min' (taken max) greedy s' k
          else None
      | [] => None
      end
  | O =>
      if greedy then
        match
          match s with
          | c :: s' =>
              if may_take max && item_matches f i c
              then repeat_item i O (taken max) greedy s' k
              else None
          | [] => None
          end
        with
        | Some a => Some a
        | None => k s
        end
      else
        match k s with
        | Some a => Some a
        | None =>
            match s with
            | c :: s' =>
                if may_take max && item_matches f i c
                then repeat_item i O (taken max) greedy s' k
                else None
            | [] => None
            end
        end
  end.

(** The backtracking matcher: [exec r s caps k] matches [r] at the head
    of [s] and hands what is left of the text to [k]; when [k] refuses,
    the next way of matching [r] is tried. *)
Fixpoint exec (r : regex) (s : str) (caps : captures)
         (k : str -> captures -> option A) : option A :=
  match r with
  | Eps => k s caps
  | Item i =>
      match s with
      | c :: s' => if item_matches f i c then k s' caps else None
      | [] => None
      end
  | Repeat i min max greedy =>
      repeat_item i min max greedy s (fun s' => k s' caps)
  | Cat r1 r2 =>
      exec r1 s caps (fun s' caps' => exec r2 s' caps' k)
  | Alt r1 r2 =>
      match exec r1 s caps k with
      | Some a => Some a
      | None => exec r2 s caps k
      end
  | Group n r1 =>
      exec r1 s caps
        (fun s' caps' =>
           k s' ((n, firstn (length s - length s') s) :: caps'))
  | Backref n =>
      match group_text n caps with
      | Some g =>
          match match_backref f g s with
          | Some s' => k s' caps
          | None => None
          end
      | None => None
      end
  end.

End Matcher.

(** A match of [r] at the head of [s]: its width.  With [must_advance]
    an empty match is refused and the matcher backtracks. *)
Definition match_at (f : flags) (r : regex) (must_advance : bool)
           (s : str) : option nat :=
  exec f r s []
    (fun s' _ =>
       if must_advance && Nat.eqb (length s') (length s) then None
       else Some (length s - length s')).

(** The scan of [re.sub]: [skip] characters of the current match are
    still to be passed over.  After an empty match the same position is
    tried once more for a match that advances. *)
Fixpoint sub_scan (f : flags) (r : regex) (repl : str) (s : str)
         (skip : nat) : str :=
  match s with
  | [] =>
      match skip, match_at f r false [] with
      | O, Some _ => repl
      | _, _ => []
      end
  | c :: s' =>
      match skip with
      | S n => sub_scan f r repl s' n
      | O =>
          match match_at f r false s with
          | Some (S n) => repl ++ sub_scan f r repl s' n
          | Some O =>
              repl ++
              match match_at f r true s with
              | Some (S n) => repl ++ sub_scan f r repl s' n
              | _ => c :: sub_scan f r repl s' 0
              end
          | None => c :: sub_scan f r repl s' 0
          end
      end
  end.

(** [re.sub(pattern, repl, string)] for a replacement with no
    back-reference. *)
Definition sub (f : flags) (r : regex) (repl : str) (s : str) : str :=
  sub_scan f r repl s 0.

(** The characters of a word, one after the other. *)
Fixpoint literal (w : string) : regex :=
  match w with
  | EmptyString => Eps
  | String a rest => Cat (Item (Chr (N_of_ascii a))) (literal rest)
  end.

End Re.

(* ===================================================================== *)
(** * HTML stripper *)
(* ===================================================================== *)

Import Re.

(** [(?is)<(script|style).*?>.*?(</\1>)] *)
Definition re_script_style : flags * regex :=
  (Flags true true,
   Cat (literal "<")
  (Cat (Group 1 (Alt (literal "script") (literal "style")))
  (Cat (Repeat Dot 0 None false)
  (Cat (literal ">")
  (Cat (Repeat Dot 0 None false)
       (Group 2 (Cat (literal "</") (Cat (Backref 1) (literal ">"))))))))).

(** [(?s)<br\s*/?>] *)
Definition re_br : flags * regex :=
  (Flags false true,
   Cat (literal "<br")
  (Cat (Repeat Whitespace 0 None true)
  (Cat (Repeat (Chr 47) 0 (Some 1) true)
       (literal ">")))).

(** [(?s)</p\s*>] *)
Definition re_close_p : flags * regex :=
  (Flags false true,
   Cat (literal "</p") (Cat (Repeat Whitespace 0 None true) (literal ">"))).

(** [(?s)<.*?>] *)
Definition re_tag : flags * regex :=
  (Flags false true,
   Cat (literal "<") (Cat (Repeat Dot 0 None false) (literal ">"))).

(** [[ \t]+\n] *)
Definition re_trailing_blank : flags * regex :=
  (Flags false false,
   Cat (Repeat (OneOf [32; 9]%N) 1 None true) (Item (Chr 10))).

Definition re_sub (p : flags * regex) (repl : str) (s : str) : str :=
  Re.sub (fst p) (snd p) repl s.

(** [strip_html(html)]. *)
Definition strip_html (html : str) : str :=
  let text := re_sub re_script_style [] html in
  let text := re_sub re_br [10%N] text in
  let text := re_sub re_close_p [10%N; 10%N] text in
  let text := re_sub re_tag [] text in
  strip (re_sub re_trailing_blank [10%N] text).

(* ===================================================================== *)
(** * Body extractor *)
(* ===================================================================== *)

(** [payload["body"]]: a dict whose ["data"] key may be absent. *)
Record body_t : Type := Body { data : option str }.

(** A MIME part as the provider returns it: every key may be absent. *)
Unset Elimination Schemes.
Inductive payload : Type :=
  Payload (mimeType : option str) (body : option body_t)
          (parts : option (list payload)) (headers : option (list header)).
Set Elimination Schemes.

Definition mimeType (p : payload) : option str :=
  match p with Payload mt _ _ _ => mt end.
Definition body (p : payload) : option body_t :=
  match p with Payload _ b _ _ => b end.
Definition parts (p : payload) : option (list payload) :=
  match p with Payload _ _ ps _ => ps end.
Definition headers (p : payload) : option (list header) :=
  match p with Payload _ _ _ hs => hs end.

(** [{}] read as a payload. *)
Definition empty_payload : payload := Payload None None None None.

(** [part.get("mimeType", "")]. *)
Definition mime_of (p : payload) : str := from_key [] (mimeType p).

(** [part.get("body", {}).get("data")]. *)
Definition data_of (p : payload) : option str :=
  match body p with Some b => data b | None => None end.

Definition text_plain : str := lit "text/plain".
Definition text_html : str := lit "text/html".
Definition multipart_prefix : str := lit "multipart/".

Section Walk.

Local Open Scope result_scope.

(** The recursive call of the extractor. *)
Variable extract : payload -> result str.

(** The [for part in payload["parts"]] loop with the two [if]s that
    follow it. *)
Fixpoint walk_parts (ps : list payload)
         (plain_candidate html_candidate : str) : result str :=
  match ps with
  | [] =>
      if nonempty plain_candidate then Ok plain_candidate
      else if nonempty html_candidate then Ok html_candidate
      else Ok []
  | part :: rest =>
      let mt := mime_of part in
      if startswith mt multipart_prefix then
        sub <- extract part ;;
        if nonempty sub then Ok sub
        else walk_parts rest plain_candidate html_candidate
      else if str_eqb mt text_plain && truthy (data_of part) then
        text <- decode_part (from_key [] (data_of part)) ;;
        walk_parts rest (str_or (strip text) plain_candidate) html_candidate
      else if str_eqb mt text_html && truthy (data_of part) then
        text <- decode_part (from_key [] (data_of part)) ;;
        walk_parts rest plain_candidate (str_or (strip_html text) html_candidate)
      else walk_parts rest plain_candidate html_candidate
  end.

End Walk.

(** [extract_plain_text_from_payload(payload)]. *)
Fixpoint extract_plain_text_from_payload (p : payload) : result str :=
  match p with
  | Payload mt b ps _ =>
      let mime_type := from_key [] mt in
      let data := match b with Some b' => data b' | None => None end in
      if str_eqb mime_type text_plain && truthy data then
        (text <- decode_part (from_key [] data) ;; Ok (strip text))%result
      else if str_eqb mime_type text_html && truthy data then
        (text <- decode_part (from_key [] data) ;; Ok (strip_html text))%result
      else
        match ps with
        | Some children =>
            walk_parts extract_plain_text_from_payload children [] []
        | None => Ok []
        end
  end.

(* ===================================================================== *)
(** * The remote services and the orchestrator *)
(* ===================================================================== *)

(** One entry of the label list. *)
Record label : Type := Label { lab_name : option str; lab_id : option str }.

(** One entry of a page of the message list; ["id"] is always there. *)
Record message_ref : Type := MessageRef { m_id : str }.

(** One page of the message list. *)
Record list_response : Type := ListResponse {
  messages : option (list message_ref);
  nextPageToken : option str
}.

(** A message in full format. *)
Record message : Type := Message {
  msg_payload : option payload;
  msg_snippet : option str
}.

(** A spreadsheet row: [[subject, sender, body]]. *)
Definition row := list str.

Definition SPREADSHEET_ID : str :=
  lit "1tjg8LSjxGgVBXVJlrkE54Uf8sayarHc3Nkf_hdSGLso".
Definition SHEET_RANGE : str := lit "Sheet1!A:C".

(** The mail client: each request is a transition of the remote world
    that answers or raises.  [messages_list] takes [labelIds],
    [pageToken] and [maxResults]; [messages_get] the message id. *)
Record gmail_service (W : Type) : Type := Gmail {
  labels_list : W -> result (option (list label)) * W;
  messages_list :
    list str -> option str -> nat -> W -> result list_response * W;
  messages_get : str -> W -> result message * W
}.

(** The spreadsheet client: [values_append] takes [spreadsheetId],
    [range] and the rows. *)
Record sheets_service (W : Type) : Type := Sheets {
  values_append : str -> str -> list row -> W -> result unit * W
}.

(** What a run can touch: the remote world and the console. *)
Record state (W : Type) : Type := State {
  remote : W;
  stdout : list str
}.

(** A computation with effects: [None] when the fuel of a loop ran out,
    otherwise the value or the exception, and the state reached. *)
Definition io (W A : Type) : Type := state W -> option (result A * state W).

Section IO.

Variable W : Type.

Definition ret {A : Type} (a : A) : io W A := fun st => Some (Ok a, st).

Definition raise {A : Type} (e : exn) : io W A :=
  fun st => Some (Raise e, st).

Definition bind {A B : Type} (m : io W A) (k : A -> io W B) : io W B :=
  fun st =>
    match m st with
    | Some (Ok a, st') => k a st'
    | Some (Raise e, st') => Some (Raise e, st')
    | None => None
    end.

(** A pure computation that can raise. *)
Definition lift {A : Type} (r : result A) : io W A :=
  fun st => Some (r, st).

(** [request.execute()]. *)
Definition execute {A : Type} (request : W -> result A * W) : io W A :=
  fun st =>
    let (r, w) := request (remote st) in
    Some (r, State w (stdout st)).

(** [print(line)]. *)
Definition print (line : str) : io W unit :=
  fun st => Some (Ok tt, State (remote st) (stdout st ++ [line])).

(** [try: body except HttpError as e: handler(e)]. *)
Definition try_except_HttpError {A : Type} (body : io W A)
           (handler : str -> io W A) : io W A :=
  fun st =>
    match body st with
    | Some (Raise (HttpError e), st') => handler e st'
    | other => other
    end.

End IO.

Arguments ret {W A} a.
Arguments raise {W A} e.
Arguments lift {W A} r.
Arguments print {W} line.

Declare Scope io_scope.
Delimit Scope io_scope with io.
Notation "x <- m ;; k" := (bind m (fun x => k))
  (at level 61, m at next level, right associativity) : io_scope.
Notation "m ;;; k" := (bind m (fun _ => k))
  (at level 61, right associativity) : io_scope.

(** [str(n)] for a length. *)
Definition str_of_nat (n : nat) : str :=
  lit (NilZero.string_of_uint (Nat.to_uint n)).

Section Program.

Local Open Scope io_scope.

Variable W : Type.

(** [str.lower()], as in the header lookup. *)
Variable lower : str -> str.

(** [get_label_id(gmail, label_name)]. *)
Fixpoint find_label (labels : list label) (label_name : str) : option str :=
  match labels with
  | [] => None
  | lab :: rest =>
      match lab_name lab with
      | Some n =>
          if str_eqb n label_name then lab_id lab
          else find_label rest label_name
      | None => find_label rest label_name
      end
  end.

Definition get_label_id (gmail : gmail_service W) (label_name : str)
  : io W (option str) :=
  resp <- execute (labels_list gmail) ;;
  ret (find_label (from_key [] resp) label_name).

(** The [while True] loop of [list_message_ids]; [fuel] bounds the
    number of pages requested. *)
Fixpoint list_pages (fuel : nat) (gmail : gmail_service W) (label_id : str)
         (page_token : option str) (ids : list str) : io W (list str) :=
  match fuel with
  | O => fun _ => None
  | S fuel' =>
      resp <- execute (messages_list gmail [label_id] page_token 500) ;;
      let ids := ids ++ map m_id (from_key [] (messages resp)) in
      let page_token := nextPageToken resp in
      if truthy page_token
      then list_pages fuel' gmail label_id page_token ids
      else ret ids
  end.

(** [list_message_ids(gmail, label_id)]. *)
Definition list_message_ids (fuel : nat) (gmail : gmail_service W)
           (label_id : str) : io W (list str) :=
  list_pages fuel gmail label_id None [].

(** What [fetch_message_fields] does with the message once fetched. *)
Definition message_fields (msg : message) : result (str * str * str) :=
  let payload := from_key empty_payload (msg_payload msg) in
  let headers := from_key [] (headers payload) in
  let subject := get_header lower headers (lit "Subject") in
  let sender := get_header lower headers (lit "From") in
  (text <- extract_plain_text_from_payload payload ;;
   let body_text := strip text in
   let body_text :=
     if nonempty body_text then body_text
     else strip (str_or (from_key [] (msg_snippet msg)) [])
   in
   Ok (subject, sender, body_text))%result.

(** [fetch_message_fields(gmail, msg_id)]. *)
Definition fetch_message_fields (gmail : gmail_service W) (msg_id : str)
  : io W (str * str * str) :=
  msg <- execute (messages_get gmail msg_id) ;;
  lift (message_fields msg).

(** [append_rows_to_sheet(sheets, rows)]. *)
Definition append_rows_to_sheet (sheets : sheets_service W)
           (rows : list row) : io W unit :=
  match rows with
  | [] => ret tt
  | _ :: _ => execute (values_append sheets SPREADSHEET_ID SHEET_RANGE rows)
  end.

Definition skip_line (mid e : str) : str :=
  lit "Skipping message " ++ mid ++ lit " due to API error: " ++ e.

Definition found_line (n : nat) : str :=
  lit "Found " ++ str_of_nat n ++ lit " messages under label 'internships'.".

(** The [for mid in msg_ids] loop of [main]. *)
Fixpoint collect_rows (gmail : gmail_service W) (msg_ids : list str)
         (rows : list row) : io W (list row) :=
  match msg_ids with
  | [] => ret rows
  | mid :: rest =>
      rows' <- try_except_HttpError
                 (fields <- fetch_message_fields gmail mid ;;
                  let '(subject, sender, body) := fields in
                  ret (rows ++ [[subject; sender; body]]))
                 (fun e => print (skip_line mid e) ;;; ret rows) ;;
      collect_rows gmail rest rows'
  end.

(** [main()], from the two authenticated clients on. *)
Definition main (fuel : nat) (gmail : gmail_service W)
           (sheets : sheets_service W) : io W unit :=
  label_id <- get_label_id gmail (lit "internships") ;;
  if negb (truthy label_id)
  then raise (RuntimeError
                (lit "Could not find Gmail label named " ++ [34%N]
                 ++ lit "internships" ++ [34%N] ++ lit "."))
  else
    msg_ids <- list_message_ids fuel gmail (from_key [] label_id) ;;
    print (found_line (length msg_ids)) ;;;
    rows <- collect_rows gmail msg_ids [] ;;
    append_rows_to_sheet sheets rows ;;;
    print (lit "Done.").

End Program.

Unset Implicit Arguments.

(* ===================================================================== *)
(** * Example data *)
(* ===================================================================== *)

(** A leaf part with an inline body. *)
Definition leaf (mt : str) (data_b64 : string) : payload :=
  Payload (Some mt) (Some (Body (Some (lit data_b64)))) None None.

(** A part with children and no body. *)
Definition container (mt : string) (children : list payload) : payload :=
  Payload (Some (lit mt)) None (Some children) None.

(** [multipart/alternative] with two plain bodies, [a] then [b]. *)
Definition two_plain : payload :=
  container "multipart/alternative"
    [leaf text_plain "YQ=="; leaf text_plain "Yg=="].

(** [multipart/alternative] with two html bodies, [a] then [b]. *)
Definition two_html : payload :=
  container "multipart/alternative"
    [leaf text_html "YQ=="; leaf text_html "Yg=="].

(** A plain body [a], a nested multipart holding [b], a plain body [c]. *)
Definition nested_between : payload :=
  container "multipart/mixed"
    [leaf text_plain "YQ==";
     container "multipart/alternative" [leaf text_plain "Yg=="];
     leaf text_plain "Yw=="].

(** An html body [<b>x</b>] before a plain body [hi]. *)
Definition html_then_plain : payload :=
  container "multipart/alternative"
    [leaf text_html "PGI-eDwvYj4="; leaf text_plain "aGk="].

(** An attached message: not a multipart type, yet it has children. *)
Definition attached_message : payload :=
  container "message/rfc822" [leaf text_plain "aGk="].

(** A synthetic lister: three pages chained by the tokens [t1] and [t2].
    Its world counts the requests made. *)
Definition three_pages : gmail_service nat :=
  Gmail
    (fun w => (Ok (Some [Label (Some (lit "internships")) (Some (lit "L1"))]), S w))
    (fun _ tok _ w =>
       match tok with
       | None =>
           (Ok (ListResponse (Some [MessageRef (lit "A"); MessageRef (lit "B")])
                             (Some (lit "t1"))), S w)
       | Some t =>
           if str_eqb t (lit "t1")
           then (Ok (ListResponse (Some [MessageRef (lit "C")])
                                  (Some (lit "t2"))), S w)
           else (Ok (ListResponse (Some [MessageRef (lit "D")]) None), S w)
       end)
    (fun _ w => (Raise (HttpError (lit "404")), S w)).

(** A message with the given subject and plain body. *)
Definition plain_message (subject body_b64 : string) : message :=
  Message
    (Some (Payload (Some text_plain) (Some (Body (Some (lit body_b64)))) None
                   (Some [Header (Some (lit "Subject")) (Some (lit subject));
                          Header (Some (lit "From")) (Some (lit "x@example.org"))])))
    (Some (lit "preview")).

(** A message with nothing but an attachment, and its preview. *)
Definition attachment_only : message :=
  Message
    (Some (Payload (Some (lit "application/pdf")) (Some (Body None)) None
                   (Some [Header (Some (lit "subject")) (Some (lit "Offer"))])))
    (Some (lit "  see attached ")).

(** A mailbox with one label and the messages [A], [B] and [C] on one
    page; fetching [B] fails.  The world is the content of the sheet,
    which the mail service leaves alone. *)
Definition flaky_mailbox : gmail_service (list row) :=
  Gmail
    (fun w => (Ok (Some [Label (Some (lit "Inbox")) (Some (lit "L0"));
                         Label (Some (lit "internships")) (Some (lit "L1"))]), w))
    (fun _ _ _ w =>
       (Ok (ListResponse
              (Some [MessageRef (lit "A"); MessageRef (lit "B");
                     MessageRef (lit "C")]) None), w))
    (fun mid w =>
       if str_eqb mid (lit "A") then (Ok (plain_message "Hello" "YQ=="), w)
       else if str_eqb mid (lit "B") then (Raise (HttpError (lit "500")), w)
       else if str_eqb mid (lit "C") then (Ok attachment_only, w)
       else (Raise (HttpError (lit "404")), w)).

(** A spreadsheet client that inserts the rows after those of the sheet. *)
Definition plain_sheet : sheets_service (list row) :=
  Sheets (fun _ _ rows w => (Ok tt, w ++ rows)).

(** Two headers that both answer to [subject]. *)
Definition duplicate_headers : list header :=
  [ Header (Some (lit "From")) (Some (lit "a@example.org"));
    Header (Some (lit "SUBJECT")) (Some (lit "first"));
    Header (Some (lit "Subject")) (Some (lit "second")) ].

(* ===================================================================== *)
(** * Vocabulary of the statements *)
(* ===================================================================== *)

(** The media type starts with [multipart/]. *)
Definition is_multipart (p : payload) : bool :=
  startswith (mime_of p) multipart_prefix.

(** A part of type [text/plain] with an inline body. *)
Definition plain_leaf (p : payload) : bool :=
  str_eqb (mime_of p) text_plain && truthy (data_of p).

(** A part of type [text/html] with an inline body. *)
Definition html_leaf (p : payload) : bool :=
  str_eqb (mime_of p) text_html && truthy (data_of p).

(** The decoded, trimmed text of a plain leaf. *)
Definition plain_text (p : payload) : result str :=
  (text <- decode_part (from_key [] (data_of p)) ;; Ok (strip text))%result.

(** The decoded, stripped text of an html leaf. *)
Definition html_text (p : payload) : result str :=
  (text <- decode_part (from_key [] (data_of p)) ;; Ok (strip_html text))%result.

(** The loop passes over a child: a nested multipart yields no text, and
    the body of a leaf decodes. *)
Definition passes (ch : payload) : Prop :=
  (is_multipart ch = true -> extract_plain_text_from_payload ch = Ok [])
  /\ (plain_leaf ch = true -> exists t, plain_text ch = Ok t)
  /\ (html_leaf ch = true -> exists t, html_text ch = Ok t).

(** The candidates after the loop has passed over a child. *)
Definition plain_after (pl : str) (ch : payload) : str :=
  if plain_leaf ch then
    match plain_text ch with Ok t => str_or t pl | Raise _ => pl end
  else pl.
Definition html_after (ht : str) (ch : payload) : str :=
  if html_leaf ch then
    match html_text ch with Ok t => str_or t ht | Raise _ => ht end
  else ht.

(** A child that leaves no plain (resp. html) candidate. *)
Definition no_plain (ch : payload) : Prop :=
  plain_leaf ch = true -> plain_text ch = Ok [].
Definition no_html (ch : payload) : Prop :=
  html_leaf ch = true -> html_text ch = Ok [].

(** The identifiers of one page. *)
Definition page_ids (resp : list_response) : list str :=
  map m_id (from_key [] (messages resp)).

(** [serves gmail label_id w tok pages w']: asked for the label's messages
    from the world [w] with the token [tok], and then with the token of
    each page in turn, the mail service answers with [pages], of which the
    last, and only the last, carries no continuation token, and is left in
    the world [w']. *)
Inductive serves {W : Type} (gmail : gmail_service W) (label_id : str)
  : W -> option str -> list list_response -> W -> Prop :=
| serves_last (w : W) (tok : option str) (resp : list_response) (w' : W) :
    messages_list gmail [label_id] tok 500 w = (Ok resp, w') ->
    truthy (nextPageToken resp) = false ->
    serves gmail label_id w tok [resp] w'
| serves_more (w : W) (tok : option str) (resp : list_response) (w1 : W)
              (pages : list list_response) (w' : W) :
    messages_list gmail [label_id] tok 500 w = (Ok resp, w1) ->
    truthy (nextPageToken resp) = true ->
    serves gmail label_id w1 (nextPageToken resp) pages w' ->
    serves gmail label_id w tok (resp :: pages) w'.

(** [fetches lower gmail w ids outs w']: fetched one after the other from
    the world [w], the messages [ids] give the outcomes [outs], each the
    fields of the message or a remote error, and leave the world [w']. *)
Inductive fetches {W : Type} (lower : str -> str) (gmail : gmail_service W)
  : W -> list str -> list (result (str * str * str)) -> W -> Prop :=
| fetches_nil (w : W) : fetches lower gmail w [] [] w
| fetches_ok (w : W) (mid : str) (msg : message) (w1 : W)
             (fields : str * str * str) (rest : list str)
             (outs : list (result (str * str * str))) (w' : W) :
    messages_get gmail mid w = (Ok msg, w1) ->
    message_fields lower msg = Ok fields ->
    fetches lower gmail w1 rest outs w' ->
    fetches lower gmail w (mid :: rest) (Ok fields :: outs) w'
| fetches_error (w : W) (mid : str) (e : str) (w1 : W) (rest : list str)
                (outs : list (result (str * str * str))) (w' : W) :
    messages_get gmail mid w = (Raise (HttpError e), w1) ->
    fetches lower gmail w1 rest outs w' ->
    fetches lower gmail w (mid :: rest) (Raise (HttpError e) :: outs) w'.

(** The row of a message. *)
Definition row_of (fields : str * str * str) : row :=
  let '(subject, sender, body) := fields in [subject; sender; body].

(** The rows of the outcomes, in their order: one per success, none for a
    failure. *)
Fixpoint rows_of (outs : list (result (str * str * str))) : list row :=
  match outs with
  | [] => []
  | Ok fields :: rest => row_of fields :: rows_of rest
  | Raise _ :: rest => rows_of rest
  end.

(** The lines reported for the failures, in their order. *)
Fixpoint skipped_lines (ids : list str)
         (outs : list (result (str * str * str))) : list str :=
  match ids, outs with
  | mid :: ids', Raise (HttpError e) :: outs' =>
      skip_line mid e :: skipped_lines ids' outs'
  | _ :: ids', _ :: outs' => skipped_lines ids' outs'
  | _, _ => []
  end.

(** The text is empty or starts with a character that is not a blank. *)
Definition starts_clean (s : str) : Prop :=
  match s with [] => True | c :: _ => isspace c = false end.

(** What the extractor returns is trimmed. *)
Definition returns_trimmed (p : payload) : Prop :=
  forall t, extract_plain_text_from_payload p = Ok t -> strip t = t.

(** Induction on a MIME tree, with the children of a part at hand. *)
Section PayloadInduction.

Variable P : payload -> Prop.
Hypothesis Hleaf : forall mt b hs, P (Payload mt b None hs).
Hypothesis Hnode :
  forall mt b children hs,
    Forall P children -> P (Payload mt b (Some children) hs).

Fixpoint payload_ind (p : payload) : P p :=
  match p with
  | Payload mt b None hs => Hleaf mt b hs
  | Payload mt b (Some children) hs =>
      Hnode mt b children hs
        ((fix all (l : list payload) : Forall P l :=
            match l with
            | [] => Forall_nil P
            | x :: l' => Forall_cons x (payload_ind x) (all l')
            end) children)
  end.

End PayloadInduction.

(** A Unicode scalar value: a code point that is not a surrogate. *)
Definition scalar (c : N) : Prop :=
  (c < 0x110000 /\ ~ (0xD800 <= c <= 0xDFFF))%N.

(** [subseq l1 l2]: [l1] is [l2] with some elements left out. *)
Inductive subseq {A : Type} : list A -> list A -> Prop :=
| subseq_nil : subseq [] []
| subseq_keep (x : A) (l1 l2 : list A) :
    subseq l1 l2 -> subseq (x :: l1) (x :: l2)
| subseq_drop (x : A) (l1 l2 : list A) :
    subseq l1 l2 -> subseq l1 (x :: l2).

(** A body whose bytes are [h], [e] with an acute accent in UTF-8, and the
    stray byte [0xFF]. *)
Definition stray_byte_body : str := lit "aMOp_w==".

(** [part_of q p]: [q] is [p] or a part below it. *)
Inductive part_of (q : payload) : payload -> Prop :=
| part_self : part_of q q
| part_child (c : payload) (mt : option str) (b : option body_t)
             (children : list payload) (hs : option (list header)) :
    In c children -> part_of q c ->
    part_of q (Payload mt b (Some children) hs).

(** [t] is the text of an inline text part of [p]. *)
Definition text_of_a_part (p : payload) (t : str) : Prop :=
  exists q, part_of q p
            /\ ((plain_leaf q = true /\ plain_text q = Ok t)
                \/ (html_leaf q = true /\ html_text q = Ok t)).

(** A child the loop has no branch for: neither multipart nor an inline
    text part. *)
Definition other_child (ch : payload) : Prop :=
  is_multipart ch = false /\ plain_leaf ch = false /\ html_leaf ch = false.

(** A plain body, then a plain body whose base64 is cut short. *)
Definition good_then_broken : payload :=
  container "multipart/mixed"
    [leaf text_plain "YQ=="; leaf text_plain "Yg"].

(** An attached message between two empty attachments, inside a
    [multipart/mixed]. *)
Definition attachment_inside : payload :=
  container "multipart/mixed"
    [leaf text_html "PGI-eDwvYj4="; attached_message].

(** [listing_fails gmail label_id w tok n e w']: asked for the label's
    messages from the world [w] with the token [tok], the mail service
    answers with pages that all carry a token and raises [e] at the
    [n]-th request, which leaves the world [w']. *)
Inductive listing_fails {W : Type} (gmail : gmail_service W) (label_id : str)
  : W -> option str -> nat -> exn -> W -> Prop :=
| fails_now (w : W) (tok : option str) (e : exn) (w' : W) :
    messages_list gmail [label_id] tok 500 w = (Raise e, w') ->
    listing_fails gmail label_id w tok 1 e w'
| fails_later (w : W) (tok : option str) (resp : list_response) (w1 : W)
              (n : nat) (e : exn) (w' : W) :
    messages_list gmail [label_id] tok 500 w = (Ok resp, w1) ->
    truthy (nextPageToken resp) = true ->
    listing_fails gmail label_id w1 (nextPageToken resp) n e w' ->
    listing_fails gmail label_id w tok (S n) e w'.

(** A mail service whose every page carries a token. *)
Definition endless_pages : gmail_service nat :=
  Gmail
    (fun w => (Ok None, w))
    (fun _ _ _ w =>
       (Ok (ListResponse (Some [MessageRef (lit "A")]) (Some (lit "next"))),
        S w))
    (fun _ w => (Raise (HttpError (lit "404")), w)).

(** A mail service that raises at its second page. *)
Definition second_page_fails : gmail_service nat :=
  Gmail
    (fun w => (Ok (Some [Label (Some (lit "internships")) (Some (lit "L1"))]), S w))
    (fun _ tok _ w =>
       match tok with
       | None =>
           (Ok (ListResponse (Some [MessageRef (lit "A")]) (Some (lit "t1"))),
            S w)
       | Some _ => (Raise (HttpError (lit "503")), S w)
       end)
    (fun _ w => (Ok (plain_message "Hello" "YQ=="), S w)).

(** A mailbox with the label and one message, whose body is base64 cut
    short. *)
Definition broken_body_mailbox : gmail_service (list row) :=
  Gmail
    (fun w => (Ok (Some [Label (Some (lit "internships")) (Some (lit "L1"))]), w))
    (fun _ _ _ w =>
       (Ok (ListResponse (Some [MessageRef (lit "A"); MessageRef (lit "B")])
                         None), w))
    (fun mid w =>
       if str_eqb mid (lit "A") then (Raise (HttpError (lit "500")), w)
       else (Ok (plain_message "Hello" "YQ"), w)).

(** A mailbox whose labels do not include the one looked for. *)
Definition no_such_label : gmail_service nat :=
  Gmail
    (fun w => (Ok (Some [Label (Some (lit "Internships")) (Some (lit "L0"));
                         Label None (Some (lit "L1"))]), S w))
    (fun _ _ _ w => (Ok (ListResponse None None), S w))
    (fun _ w => (Raise (HttpError (lit "404")), S w)).


(** The exceptions of the decoding steps. *)
Definition decoding_error (e : exn) : Prop :=
  e = BinasciiError \/ e = UnicodeEncodeError.

(** The standard base64 alphabet read in the URL-safe one: [+] as [-] and
    [/] as [_]. *)
Definition to_urlsafe (c : N) : N :=
  (if c =? 43 then 45 else if c =? 47 then 95 else c)%N.

(** A character of one of the two base64 alphabets. *)
Definition base64_digit (c : N) : Prop := Codec.urlsafe_digit c <> None.

(** No [<] of the text has a [>] anywhere after it: the text holds nothing
    that the tag pattern matches. *)
Fixpoint tagless (s : str) : Prop :=
  match s with
  | [] => True
  | c :: s' => (c = 60%N -> ~ In 62%N s') /\ tagless s'
  end.

(** A space or a tab. *)
Definition is_blank (c : N) : bool := (c =? 32)%N || (c =? 9)%N.

(** No space or tab stands right before a newline. *)
Fixpoint tidy_lines (s : str) : Prop :=
  match s with
  | [] => True
  | c :: s' =>
      match s' with
      | d :: _ => is_blank c = true -> d <> 10%N
      | [] => True
      end /\ tidy_lines s'
  end.

(** Spaces and tabs, then a newline. *)
Fixpoint blanks_then_newline (s : str) : bool :=
  match s with
  | [] => false
  | c :: s' =>
      if (c =? 10)%N then true
      else if is_blank c then blanks_then_newline s'
      else false
  end.

(** The character a pattern has to start with, when it starts with a
    literal. *)
Fixpoint first_chr (r : Re.regex) : option N :=
  match r with
  | Re.Item (Re.Chr x) => Some x
  | Re.Cat r1 _ => first_chr r1
  | Re.Group _ r1 => first_chr r1
  | _ => None
  end.

(** The bytes begin with the UTF-8 encoding of a scalar value. *)
Definition encoding_starts (s : bytes) : Prop :=
  exists c tail, scalar c /\ s = Codec.encode_char c ++ tail.

(** A body whose bytes are [h], the stray byte [0xFF] and [i]. *)
Definition stray_byte_inside : str := lit "aP9p".

(** The messages whose fetch raised a remote error, each with the text of
    the error, in the order of the list. *)
Fixpoint failures (ids : list str)
         (outs : list (result (str * str * str))) : list (str * str) :=
  match ids, outs with
  | mid :: ids', Raise (HttpError e) :: outs' =>
      (mid, e) :: failures ids' outs'
  | _ :: ids', _ :: outs' => failures ids' outs'
  | _, _ => []
  end.

(** A plain body that is one space, and an html body [<b>x</b>]. *)
Definition blank_plain_then_html : payload :=
  container "multipart/alternative"
    [leaf text_plain "IA=="; leaf text_html "PGI-eDwvYj4="].

(* ===================================================================== *)
(** * Strings: basic facts *)
(* ===================================================================== *)

Lemma str_eqb_refl (a : str) : str_eqb a a = true.
Proof.
  induction a as [|x a IH]; simpl; [reflexivity|].
  now rewrite N.eqb_refl, IH.
Qed.

Lemma str_eqb_eq (a b : str) : str_eqb a b = true <-> a = b.
Proof.
  split; [|intros ->; apply str_eqb_refl].
  revert b; induction a as [|x a IH]; intros [|y b]; simpl; try discriminate.
  - reflexivity.
  - intros H. apply andb_true_iff in H as [Hx Hr].
    apply N.eqb_eq in Hx. now rewrite Hx, (IH b Hr).
Qed.

Lemma nonempty_false (s : str) : nonempty s = false <-> s = [].
Proof. destruct s; simpl; split; intros H; congruence. Qed.

Lemma nonempty_true (s : str) : nonempty s = true <-> s <> [].
Proof. destruct s; simpl; split; intros H; congruence. Qed.

Lemma str_or_nonempty (a b : str) : a <> [] -> str_or a b = a.
Proof. unfold str_or. destruct a; simpl; congruence. Qed.

Lemma str_or_empty (b : str) : str_or [] b = b.
Proof. reflexivity. Qed.

(* ===================================================================== *)
(** * Header lookup *)
(* ===================================================================== *)

Section HeaderLookupFacts.

Variable lower : str -> str.

Lemma get_header_skip (pre rest : list header) (name : str) :
  Forall (fun h => header_matches lower name h = false) pre ->
  get_header lower (pre ++ rest) name = get_header lower rest name.
Proof.
  induction 1 as [|h pre Hh _ IH]; simpl; [reflexivity|].
  now rewrite Hh.
Qed.

Lemma get_header_none (hs : list header) (name : str) :
  Forall (fun h => header_matches lower name h = false) hs ->
  get_header lower hs name = [].
Proof.
  intros H. rewrite <- (app_nil_r hs). now rewrite get_header_skip.
Qed.

End HeaderLookupFacts.

(** C10. The header lookup is a total function of the header list and the
    name.  When several headers have a name equal to the looked-up name in
    lower case, it returns the value of the first of them in the order of
    the collection, and the empty string when that header has no value;
    it returns the empty string when no header matches. *)
Theorem get_header_first_match
        (lower : str -> str) (hs : list header) (name : str) :
  (forall pre h post,
      hs = pre ++ h :: post ->
      Forall (fun h' => header_matches lower name h' = false) pre ->
      header_matches lower name h = true ->
      get_header lower hs name = from_key [] (h_value h)
      /\ (h_value h = None -> get_header lower hs name = []))
  /\ (Forall (fun h' => header_matches lower name h' = false) hs ->
      get_header lower hs name = []).
Proof.
  split.
  - intros pre h post -> Hpre Hh.
    assert (E : get_header lower (pre ++ h :: post) name
                = from_key [] (h_value h)).
    { rewrite get_header_skip by assumption. simpl. now rewrite Hh. }
    split; [exact E|]. intros Hv. rewrite E, Hv. reflexivity.
  - apply get_header_none.
Qed.

Lemma get_header_first_match_witness :
  get_header ascii_lower duplicate_headers (lit "subject") = lit "first"
  /\ get_header ascii_lower duplicate_headers (lit "Date") = [].
Proof.
  split.
  - apply (proj1 (get_header_first_match ascii_lower duplicate_headers
                    (lit "subject"))
             [Header (Some (lit "From")) (Some (lit "a@example.org"))]
             (Header (Some (lit "SUBJECT")) (Some (lit "first")))
             [Header (Some (lit "Subject")) (Some (lit "second"))]).
    + reflexivity.
    + repeat constructor.
    + reflexivity.
  - apply (proj2 (get_header_first_match ascii_lower duplicate_headers
                    (lit "Date"))).
    repeat constructor.
Defined.

(* ===================================================================== *)
(** * HTML stripper *)
(* ===================================================================== *)

(** C9. On [<p>Hello<br>World</p>] the stripper gives [Hello], a newline,
    [World]: nothing is removed as script or style, the line break becomes
    one newline, the closing paragraph tag two newlines, the remaining tag
    is removed, no blank precedes a newline, and the final trim removes the
    two trailing newlines. *)
Theorem strip_html_hello_world :
  let html := lit "<p>Hello<br>World</p>" in
  let t1 := re_sub re_script_style [] html in
  let t2 := re_sub re_br [10%N] t1 in
  let t3 := re_sub re_close_p [10%N; 10%N] t2 in
  let t4 := re_sub re_tag [] t3 in
  let t5 := re_sub re_trailing_blank [10%N] t4 in
  t1 = html
  /\ t2 = lit "<p>Hello" ++ [10%N] ++ lit "World</p>"
  /\ t3 = lit "<p>Hello" ++ [10%N] ++ lit "World" ++ [10%N; 10%N]
  /\ t4 = lit "Hello" ++ [10%N] ++ lit "World" ++ [10%N; 10%N]
  /\ t5 = t4
  /\ strip t5 = lit "Hello" ++ [10%N] ++ lit "World"
  /\ strip_html html = lit "Hello" ++ [10%N] ++ lit "World".
Proof. vm_compute. repeat split. Qed.

(* ===================================================================== *)
(** * Body extractor *)
(* ===================================================================== *)

Lemma startswith_app (a b : str) : startswith (a ++ b) a = true.
Proof.
  induction a as [|x a IH]; simpl; [now destruct b|].
  now rewrite N.eqb_refl, IH.
Qed.

Lemma plain_leaf_not_multipart (p : payload) :
  plain_leaf p = true -> is_multipart p = false.
Proof.
  unfold plain_leaf, is_multipart. intros H.
  apply andb_true_iff in H as [H _]. apply str_eqb_eq in H. now rewrite H.
Qed.

Lemma html_leaf_not_multipart (p : payload) :
  html_leaf p = true -> is_multipart p = false.
Proof.
  unfold html_leaf, is_multipart. intros H.
  apply andb_true_iff in H as [H _]. apply str_eqb_eq in H. now rewrite H.
Qed.

Lemma html_leaf_not_plain (p : payload) :
  html_leaf p = true -> plain_leaf p = false.
Proof.
  unfold html_leaf, plain_leaf. intros H.
  apply andb_true_iff in H as [H _]. apply str_eqb_eq in H. now rewrite H.
Qed.

Lemma html_leaf_not_plain_conv (p : payload) :
  plain_leaf p = true -> html_leaf p = false.
Proof.
  intros H. destruct (html_leaf p) eqn:E; [|reflexivity].
  apply html_leaf_not_plain in E. congruence.
Qed.

Lemma multipart_not_leaf (p : payload) :
  is_multipart p = true -> plain_leaf p = false /\ html_leaf p = false.
Proof.
  intros H. split.
  - destruct (plain_leaf p) eqn:E; [|reflexivity].
    apply plain_leaf_not_multipart in E. congruence.
  - destruct (html_leaf p) eqn:E; [|reflexivity].
    apply html_leaf_not_multipart in E. congruence.
Qed.

(** The extractor on a part that is not an inline text leaf. *)
Lemma extract_unfold (p : payload) :
  plain_leaf p = false -> html_leaf p = false ->
  extract_plain_text_from_payload p =
  match parts p with
  | Some children => walk_parts extract_plain_text_from_payload children [] []
  | None => Ok []
  end.
Proof.
  destruct p as [mt b ps hs]. unfold plain_leaf, html_leaf, mime_of, data_of.
  simpl. intros -> ->. reflexivity.
Qed.

Lemma extract_plain_leaf (p : payload) :
  plain_leaf p = true -> extract_plain_text_from_payload p = plain_text p.
Proof.
  destruct p as [mt b ps hs].
  unfold plain_leaf, plain_text, mime_of, data_of. simpl. now intros ->.
Qed.

Lemma extract_html_leaf (p : payload) :
  html_leaf p = true -> extract_plain_text_from_payload p = html_text p.
Proof.
  intros H. pose proof (html_leaf_not_plain p H) as Hp. revert H Hp.
  destruct p as [mt b ps hs].
  unfold plain_leaf, html_leaf, html_text, mime_of, data_of. simpl.
  now intros -> ->.
Qed.

Abbreviation extract := extract_plain_text_from_payload (only parsing).

(** One step of the loop over a child that is passed. *)
Lemma walk_step (ch : payload) (rest : list payload) (pl ht : str) :
  passes ch ->
  walk_parts extract (ch :: rest) pl ht =
  walk_parts extract rest (plain_after pl ch) (html_after ht ch).
Proof.
  intros (Hm & Hp & Hh). simpl. unfold plain_after, html_after.
  fold (is_multipart ch).
  destruct (is_multipart ch) eqn:Em.
  - rewrite (Hm eq_refl). simpl.
    destruct (multipart_not_leaf ch Em) as [-> ->]. reflexivity.
  - fold (plain_leaf ch). destruct (plain_leaf ch) eqn:Ep.
    + rewrite (html_leaf_not_plain_conv ch Ep).
      destruct (Hp eq_refl) as [t Ht]. rewrite Ht.
      unfold plain_text in Ht.
      destruct (decode_part (from_key [] (data_of ch))) as [text|e];
        simpl in Ht; [|discriminate].
      injection Ht as Ht; subst t. reflexivity.
    + fold (html_leaf ch). destruct (html_leaf ch) eqn:Eh; [|reflexivity].
      destruct (Hh eq_refl) as [t Ht]. rewrite Ht.
      unfold html_text in Ht.
      destruct (decode_part (from_key [] (data_of ch))) as [text|e];
        simpl in Ht; [|discriminate].
      injection Ht as Ht; subst t. reflexivity.
Qed.

(** The loop over a run of children that are all passed. *)
Lemma walk_passed (pre rest : list payload) (pl ht : str) :
  Forall passes pre ->
  walk_parts extract (pre ++ rest) pl ht =
  walk_parts extract rest (fold_left plain_after pre pl)
             (fold_left html_after pre ht).
Proof.
  intros H. revert pl ht.
  induction H as [|ch pre Hch _ IH]; intros pl ht; [reflexivity|].
  rewrite <- app_comm_cons, walk_step by assumption. apply IH.
Qed.

(** The end of the loop: plain first, then html, then nothing. *)
Lemma walk_end (pl ht : str) :
  walk_parts extract [] pl ht = Ok (str_or pl (str_or ht [])).
Proof.
  simpl. unfold str_or.
  destruct (nonempty pl); [reflexivity|]. now destruct (nonempty ht).
Qed.

Lemma walk_all_passed (ps : list payload) :
  Forall passes ps ->
  walk_parts extract ps [] [] =
  Ok (str_or (fold_left plain_after ps [])
             (str_or (fold_left html_after ps []) [])).
Proof.
  intros H. rewrite <- (app_nil_r ps) at 1.
  rewrite walk_passed by assumption. apply walk_end.
Qed.

Lemma plain_after_text (pl : str) (ch : payload) (t : str) :
  plain_leaf ch = true -> plain_text ch = Ok t -> t <> [] ->
  plain_after pl ch = t.
Proof.
  intros Hl Ht Hne. unfold plain_after. rewrite Hl, Ht.
  now apply str_or_nonempty.
Qed.

Lemma html_after_text (ht : str) (ch : payload) (t : str) :
  html_leaf ch = true -> html_text ch = Ok t -> t <> [] ->
  html_after ht ch = t.
Proof.
  intros Hl Ht Hne. unfold html_after. rewrite Hl, Ht.
  now apply str_or_nonempty.
Qed.

Lemma plain_after_none (pl : str) (ch : payload) :
  passes ch -> no_plain ch -> plain_after pl ch = pl.
Proof.
  intros _ Hn. unfold plain_after.
  destruct (plain_leaf ch) eqn:E; [|reflexivity]. now rewrite (Hn E).
Qed.

Lemma html_after_none (ht : str) (ch : payload) :
  passes ch -> no_html ch -> html_after ht ch = ht.
Proof.
  intros _ Hn. unfold html_after.
  destruct (html_leaf ch) eqn:E; [|reflexivity]. now rewrite (Hn E).
Qed.

Lemma fold_plain_none (ps : list payload) (pl : str) :
  Forall no_plain ps -> fold_left plain_after ps pl = pl.
Proof.
  intros H. revert pl. induction H as [|ch ps Hch _ IH]; intros pl.
  - reflexivity.
  - simpl. rewrite IH. unfold plain_after.
    destruct (plain_leaf ch) eqn:E; [|reflexivity]. now rewrite (Hch E).
Qed.

Lemma fold_html_none (ps : list payload) (ht : str) :
  Forall no_html ps -> fold_left html_after ps ht = ht.
Proof.
  intros H. revert ht. induction H as [|ch ps Hch _ IH]; intros ht.
  - reflexivity.
  - simpl. rewrite IH. unfold html_after.
    destruct (html_leaf ch) eqn:E; [|reflexivity]. now rewrite (Hch E).
Qed.

(** A candidate that is set is the text of one of the leaves. *)
Lemma fold_plain_source (ps : list payload) (pl : str) :
  Forall passes ps ->
  fold_left plain_after ps pl = pl
  \/ exists c, In c ps /\ plain_leaf c = true
               /\ plain_text c = Ok (fold_left plain_after ps pl)
               /\ fold_left plain_after ps pl <> [].
Proof.
  intros H. revert pl. induction H as [|ch ps Hch _ IH]; intros pl.
  - now left.
  - simpl. destruct (IH (plain_after pl ch)) as [E | (c & Hin & Hl & Ht & Hne)].
    + rewrite E. unfold plain_after.
      destruct (plain_leaf ch) eqn:El; [|now left].
      destruct (plain_text ch) as [t|e] eqn:Et; [|now left].
      unfold str_or. destruct (nonempty t) eqn:En; [right|now left].
      exists ch. apply nonempty_true in En. auto.
    + right. exists c. auto.
Qed.

Lemma fold_html_source (ps : list payload) (ht : str) :
  Forall passes ps ->
  fold_left html_after ps ht = ht
  \/ exists c, In c ps /\ html_leaf c = true
               /\ html_text c = Ok (fold_left html_after ps ht)
               /\ fold_left html_after ps ht <> [].
Proof.
  intros H. revert ht. induction H as [|ch ps Hch _ IH]; intros ht.
  - now left.
  - simpl. destruct (IH (html_after ht ch)) as [E | (c & Hin & Hl & Ht & Hne)].
    + rewrite E. unfold html_after.
      destruct (html_leaf ch) eqn:El; [|now left].
      destruct (html_text ch) as [t|e] eqn:Et; [|now left].
      unfold str_or. destruct (nonempty t) eqn:En; [right|now left].
      exists ch. apply nonempty_true in En. auto.
    + right. exists c. auto.
Qed.

(** A non-empty plain text among the children leaves a plain candidate. *)
Lemma fold_plain_nonempty (ps : list payload) (pl : str) (c : payload) (t : str) :
  In c ps -> plain_leaf c = true -> plain_text c = Ok t -> t <> [] ->
  fold_left plain_after ps pl <> [].
Proof.
  intros Hin Hl Ht Hne. apply in_split in Hin as (pre & post & ->).
  rewrite fold_left_app. simpl.
  rewrite (plain_after_text _ c t Hl Ht Hne).
  clear Hl Ht. revert t Hne. induction post as [|ch post IH]; intros t Hne.
  - exact Hne.
  - simpl. apply IH. unfold plain_after.
    destruct (plain_leaf ch); [|exact Hne].
    destruct (plain_text ch) as [t'|e]; [|exact Hne].
    unfold str_or. destruct (nonempty t') eqn:En; [|exact Hne].
    now apply nonempty_true.
Qed.

Lemma multipart_unfold (p : payload) (children : list payload) :
  is_multipart p = true -> parts p = Some children ->
  extract p = walk_parts extract children [] [].
Proof.
  intros Hm Hp. destruct (multipart_not_leaf p Hm) as [H1 H2].
  now rewrite extract_unfold, Hp.
Qed.

(** C2. In a multipart part, when the loop reaches a child that is itself
    multipart and the extraction of that child gives a non-empty text, the
    extractor returns that text: the candidates recorded before it and the
    siblings after it play no part. *)
Theorem nested_multipart_short_circuit
        (p c : payload) (pre post : list payload) (s : str) :
  is_multipart p = true ->
  parts p = Some (pre ++ c :: post) ->
  Forall passes pre ->
  is_multipart c = true ->
  extract c = Ok s ->
  s <> [] ->
  extract p = Ok s.
Proof.
  intros Hp Hps Hpre Hc Hs Hne.
  rewrite (multipart_unfold p _ Hp Hps), walk_passed by assumption.
  simpl. fold (is_multipart c). rewrite Hc, Hs. simpl.
  apply nonempty_true in Hne. now rewrite Hne.
Qed.

Lemma passes_leaf_a : passes (leaf text_plain "YQ==").
Proof.
  split; [discriminate|]. split; intros _; eexists; reflexivity.
Qed.

Lemma nested_multipart_short_circuit_witness :
  extract nested_between = Ok (lit "b").
Proof.
  apply (nested_multipart_short_circuit nested_between
           (container "multipart/alternative" [leaf text_plain "Yg=="])
           [leaf text_plain "YQ=="] [leaf text_plain "Yw=="] (lit "b")).
  - reflexivity.
  - reflexivity.
  - constructor; [exact passes_leaf_a | constructor].
  - reflexivity.
  - reflexivity.
  - discriminate.
Defined.

(** C1, as claimed, fails: with two plain bodies [a] and [b] in this
    order, both non-empty, the extractor returns [b], the later one; and
    so it does with two html bodies. *)
Lemma first_candidate_does_not_win :
  is_multipart two_plain = true
  /\ parts two_plain = Some [leaf text_plain "YQ=="; leaf text_plain "Yg=="]
  /\ plain_text (leaf text_plain "YQ==") = Ok (lit "a")
  /\ plain_text (leaf text_plain "Yg==") = Ok (lit "b")
  /\ extract two_plain = Ok (lit "b")
  /\ extract two_plain <> Ok (lit "a")
  /\ html_text (leaf text_html "YQ==") = Ok (lit "a")
  /\ html_text (leaf text_html "Yg==") = Ok (lit "b")
  /\ extract two_html = Ok (lit "b")
  /\ extract two_html <> Ok (lit "a").
Proof. vm_compute. repeat split; discriminate. Qed.

(** C1, amended. In a multipart part whose children are all passed (no
    nested multipart yields text), the candidate that is returned is the
    LAST non-empty one in child order: the text of a plain leaf after which
    no plain leaf has a non-empty text; and, when no plain leaf has a
    non-empty text, the text of an html leaf after which no html leaf has a
    non-empty text. *)
Theorem last_nonempty_candidate_wins
        (p c : payload) (pre post : list payload) (t : str) :
  is_multipart p = true ->
  parts p = Some (pre ++ c :: post) ->
  Forall passes (pre ++ c :: post) ->
  t <> [] ->
  (plain_leaf c = true -> plain_text c = Ok t -> Forall no_plain post ->
   extract p = Ok t)
  /\ (html_leaf c = true -> html_text c = Ok t -> Forall no_html post ->
      Forall no_plain (pre ++ c :: post) ->
      extract p = Ok t).
Proof.
  intros Hp Hps Hall Hne.
  rewrite (multipart_unfold p _ Hp Hps), walk_all_passed by assumption.
  split.
  - intros Hl Ht Hpost.
    rewrite (fold_left_app plain_after). simpl.
    rewrite (plain_after_text _ c t Hl Ht Hne), fold_plain_none by assumption.
    now rewrite str_or_nonempty.
  - intros Hl Ht Hpost Hnp.
    rewrite (fold_plain_none _ [] Hnp), str_or_empty.
    rewrite (fold_left_app html_after). simpl.
    rewrite (html_after_text _ c t Hl Ht Hne), fold_html_none by assumption.
    now rewrite str_or_nonempty.
Qed.

Lemma last_nonempty_candidate_wins_witness :
  extract two_plain = Ok (lit "b").
Proof.
  apply (proj1 (last_nonempty_candidate_wins two_plain
                  (leaf text_plain "Yg==") [leaf text_plain "YQ=="] []
                  (lit "b") eq_refl eq_refl
                  ltac:(repeat constructor; try discriminate;
                        intros _; eexists; reflexivity)
                  ltac:(discriminate))).
  - reflexivity.
  - reflexivity.
  - constructor.
Defined.

(** C3, as claimed, fails: with a plain body that is one space and an
    html body [<b>x</b>] as the two children, both inline and both
    decoding, the extractor returns the stripped html [x], not the decoded
    trimmed text of the plain part, which is empty. *)
Lemma blank_plain_loses_to_html :
  is_multipart blank_plain_then_html = true
  /\ parts blank_plain_then_html =
     Some [leaf text_plain "IA=="; leaf text_html "PGI-eDwvYj4="]
  /\ plain_leaf (leaf text_plain "IA==") = true
  /\ decode_part (lit "IA==") = Ok (lit " ")
  /\ plain_text (leaf text_plain "IA==") = Ok []
  /\ html_leaf (leaf text_html "PGI-eDwvYj4=") = true
  /\ html_text (leaf text_html "PGI-eDwvYj4=") = Ok (lit "x")
  /\ extract blank_plain_then_html = Ok (lit "x")
  /\ extract blank_plain_then_html <> Ok [].
Proof. vm_compute. repeat split; discriminate. Qed.

(** C3, amended. In a multipart part whose children are all passed (no
    nested multipart yields text, and the inline bodies decode): when a
    plain leaf among the children has a non-empty text, the extractor
    returns the non-empty text of a plain leaf, never the stripped html,
    and that of the plain leaf itself when it is the only one; the text
    of an html leaf is returned only when no plain leaf has a non-empty
    text; and the result is empty when neither a plain nor an html leaf
    has one. *)
Theorem plain_preferred_over_html (p : payload) (ps : list payload) :
  is_multipart p = true ->
  parts p = Some ps ->
  Forall passes ps ->
  (forall c t,
      In c ps -> plain_leaf c = true -> plain_text c = Ok t -> t <> [] ->
      (exists c' t', In c' ps /\ plain_leaf c' = true
                     /\ plain_text c' = Ok t' /\ t' <> []
                     /\ extract p = Ok t')
      /\ ((forall c', In c' ps -> plain_leaf c' = true -> c' = c) ->
          extract p = Ok t))
  /\ (Forall no_plain ps ->
      forall h t,
        In h ps -> html_leaf h = true -> html_text h = Ok t -> t <> [] ->
        exists h' t', In h' ps /\ html_leaf h' = true
                      /\ html_text h' = Ok t' /\ t' <> []
                      /\ extract p = Ok t')
  /\ (Forall no_plain ps -> Forall no_html ps -> extract p = Ok []).
Proof.
  intros Hp Hps Hall.
  rewrite (multipart_unfold p _ Hp Hps), walk_all_passed by assumption.
  split; [|split].
  - intros c t Hin Hl Ht Hne.
    pose proof (fold_plain_nonempty ps [] c t Hin Hl Ht Hne) as Hfold.
    rewrite (str_or_nonempty _ _ Hfold).
    destruct (fold_plain_source ps [] Hall) as [E | (c' & Hin' & Hl' & Ht' & _)];
      [congruence|].
    split.
    + exists c', (fold_left plain_after ps []). auto.
    + intros Huniq. rewrite (Huniq c' Hin' Hl') in Ht'. congruence.
  - intros Hnp h t Hin Hl Ht Hne.
    rewrite (fold_plain_none ps [] Hnp), str_or_empty.
    destruct (fold_html_source ps [] Hall) as [E | (h' & Hin' & Hl' & Ht' & Hne')].
    + exfalso. apply in_split in Hin as (pre & post & ->).
      rewrite (fold_left_app html_after) in E. simpl in E.
      rewrite (html_after_text _ h t Hl Ht Hne) in E.
      clear - E Hne. revert t E Hne.
      induction post as [|ch post IH]; intros t E Hne; [contradiction|].
      simpl in E. apply (IH _ E). unfold html_after.
      destruct (html_leaf ch); [|exact Hne].
      destruct (html_text ch) as [t'|e]; [|exact Hne].
      unfold str_or. destruct (nonempty t') eqn:En; [|exact Hne].
      now apply nonempty_true.
    + rewrite (str_or_nonempty _ _ Hne').
      exists h', (fold_left html_after ps []). auto.
  - intros Hnp Hnh.
    now rewrite (fold_plain_none ps [] Hnp), (fold_html_none ps [] Hnh).
Qed.

Lemma plain_preferred_over_html_witness :
  extract html_then_plain = Ok (lit "hi")
  /\ html_text (leaf text_html "PGI-eDwvYj4=") = Ok (lit "x").
Proof.
  split; [|reflexivity].
  refine (proj2 (proj1 (plain_preferred_over_html html_then_plain
                   [leaf text_html "PGI-eDwvYj4="; leaf text_plain "aGk="]
                   eq_refl eq_refl _)
                   (leaf text_plain "aGk=") (lit "hi") _ eq_refl eq_refl _) _).
  - repeat constructor; try discriminate; intros _; eexists; reflexivity.
  - right. now left.
  - discriminate.
  - intros c' [<- | [<- | []]] H; [discriminate H | reflexivity].
Defined.

(** C5, as claimed, fails: a part of type [message/rfc822], which is no
    inline text leaf and whose type does not start with [multipart/], has
    its children walked, and the text of its plain child is returned. *)
Lemma children_of_other_types_are_walked :
  plain_leaf attached_message = false
  /\ html_leaf attached_message = false
  /\ is_multipart attached_message = false
  /\ extract attached_message = Ok (lit "hi")
  /\ extract attached_message <> Ok [].
Proof. vm_compute. repeat split; discriminate. Qed.

(** C5, amended. The loop over the children applies exactly to the parts
    that carry a child list, whatever their media type: a part that is not
    an inline text leaf gives the empty string when it has no child list,
    and otherwise what a multipart container with the same children
    gives. *)
Theorem children_walked_whatever_the_type (p : payload) :
  plain_leaf p = false ->
  html_leaf p = false ->
  (parts p = None -> extract p = Ok [])
  /\ (forall children,
         parts p = Some children ->
         extract p =
         extract (Payload (Some (lit "multipart/mixed")) None
                          (Some children) None)).
Proof.
  intros Hpl Hh. rewrite (extract_unfold p Hpl Hh). split.
  - now intros ->.
  - now intros children ->.
Qed.

Lemma children_walked_whatever_the_type_witness :
  extract attached_message =
  extract (container "multipart/mixed" [leaf text_plain "aGk="])
  /\ extract (Payload (Some (lit "application/pdf")) None None None) = Ok [].
Proof.
  split.
  - apply (proj2 (children_walked_whatever_the_type attached_message
                    eq_refl eq_refl)).
    reflexivity.
  - apply (proj1 (children_walked_whatever_the_type
                    (Payload (Some (lit "application/pdf")) None None None)
                    eq_refl eq_refl)).
    reflexivity.
Defined.

(* ===================================================================== *)
(** * Trimmed texts *)
(* ===================================================================== *)

Lemma rstrip_idempotent (s : str) : rstrip (rstrip s) = rstrip s.
Proof.
  induction s as [|c s IH]; [reflexivity|].
  simpl. destruct (rstrip s) as [|x r] eqn:E.
  - destruct (isspace c) eqn:Ec; [reflexivity|]. simpl. now rewrite Ec.
  - change (rstrip (c :: x :: r)) with
      (match rstrip (x :: r) with
       | [] => if isspace c then [] else [c]
       | y :: r' => c :: y :: r'
       end).
    now rewrite IH.
Qed.

Lemma lstrip_starts_clean (s : str) : starts_clean (lstrip s).
Proof.
  induction s as [|c s IH]; simpl; [exact I|].
  destruct (isspace c) eqn:Ec; [exact IH | exact Ec].
Qed.

Lemma lstrip_clean (s : str) : starts_clean s -> lstrip s = s.
Proof. destruct s as [|c s]; simpl; [reflexivity|]. now intros ->. Qed.

Lemma rstrip_starts_clean (s : str) : starts_clean s -> starts_clean (rstrip s).
Proof.
  destruct s as [|c s]; simpl; [trivial|]. intros Hc.
  destruct (rstrip s); simpl; [now rewrite Hc | exact Hc].
Qed.

Lemma strip_idempotent (s : str) : strip (strip s) = strip s.
Proof.
  unfold strip.
  rewrite (lstrip_clean (rstrip (lstrip s))).
  - apply rstrip_idempotent.
  - apply rstrip_starts_clean, lstrip_starts_clean.
Qed.

Lemma strip_html_stripped (html : str) : strip (strip_html html) = strip_html html.
Proof. unfold strip_html. apply strip_idempotent. Qed.

Lemma str_or_stripped (a b : str) :
  strip a = a -> strip b = b -> strip (str_or a b) = str_or a b.
Proof. unfold str_or. now destruct (nonempty a). Qed.

Lemma walk_trimmed (ps : list payload) :
  Forall returns_trimmed ps ->
  forall pl ht t,
    strip pl = pl -> strip ht = ht ->
    walk_parts extract ps pl ht = Ok t -> strip t = t.
Proof.
  induction 1 as [|ch ps Hch _ IH]; intros pl ht t Hpl Hht.
  - rewrite walk_end. intros E. injection E as E. subst t.
    apply str_or_stripped; [assumption|]. now apply str_or_stripped.
  - simpl. destruct (startswith (mime_of ch) multipart_prefix).
    + destruct (extract ch) as [sub|e] eqn:Es; simpl; [|discriminate].
      destruct (nonempty sub).
      * intros E. injection E as E. subst t. now apply Hch.
      * now apply IH.
    + destruct (str_eqb (mime_of ch) text_plain && truthy (data_of ch)).
      * destruct (decode_part (from_key [] (data_of ch))) as [text|e];
          simpl; [|discriminate].
        apply IH; [|assumption].
        apply str_or_stripped; [apply strip_idempotent | assumption].
      * destruct (str_eqb (mime_of ch) text_html && truthy (data_of ch)).
        -- destruct (decode_part (from_key [] (data_of ch))) as [text|e];
             simpl; [|discriminate].
           apply IH; [assumption|].
           apply str_or_stripped; [apply strip_html_stripped | assumption].
        -- now apply IH.
Qed.

Lemma extract_trimmed (p : payload) : returns_trimmed p.
Proof.
  induction p as [mt b hs | mt b children hs IH] using payload_ind;
    intros t; simpl.
  - repeat match goal with
           | |- context [if ?c then _ else _] => destruct c
           end;
      try (destruct (decode_part _) as [text|e]; simpl; [|discriminate]);
      intros E; injection E as E; subst t;
      auto using strip_idempotent, strip_html_stripped.
  - repeat match goal with
           | |- context [if ?c then _ else _] => destruct c
           end;
      try (destruct (decode_part _) as [text|e]; simpl; [|discriminate];
           intros E; injection E as E; subst t;
           auto using strip_idempotent, strip_html_stripped).
    now apply walk_trimmed.
Qed.

(* ===================================================================== *)
(** * Field extractor *)
(* ===================================================================== *)

Lemma str_or_nil_r (a : str) : str_or a [] = a.
Proof. now destruct a. Qed.

(** C8. When the extractor returns the empty string for the payload of the
    fetched message, the body returned by the field extractor is the
    trimmed preview snippet, taken with no further check, so that it is
    empty when the snippet is absent; when the extractor returns a
    non-empty text, the body is that text and the snippet plays no part. *)
Theorem snippet_fallback
        (W : Type) (lower : str -> str) (gmail : gmail_service W)
        (msg_id : str) (st : state W) (msg : message) (w' : W) :
  messages_get gmail msg_id (remote st) = (Ok msg, w') ->
  let payload := from_key empty_payload (msg_payload msg) in
  let subject := get_header lower (from_key [] (headers payload)) (lit "Subject") in
  let sender := get_header lower (from_key [] (headers payload)) (lit "From") in
  (extract payload = Ok [] ->
   fetch_message_fields lower gmail msg_id st =
   Some (Ok (subject, sender, strip (from_key [] (msg_snippet msg))),
         State w' (stdout st))
   /\ (msg_snippet msg = None ->
       fetch_message_fields lower gmail msg_id st =
       Some (Ok (subject, sender, []), State w' (stdout st))))
  /\ (forall t,
         extract payload = Ok t -> t <> [] ->
         fetch_message_fields lower gmail msg_id st =
         Some (Ok (subject, sender, t), State w' (stdout st))).
Proof.
  intros Hget payload subject sender.
  assert (Hrun : fetch_message_fields lower gmail msg_id st =
                 Some (message_fields lower msg, State w' (stdout st))).
  { unfold fetch_message_fields, bind, execute, lift. rewrite Hget.
    now destruct (message_fields lower msg). }
  rewrite Hrun. unfold message_fields. fold payload. split.
  - intros He. rewrite He. simpl. rewrite str_or_nil_r.
    split; [reflexivity|]. now intros ->.
  - intros t He Hne. rewrite He. simpl.
    rewrite (extract_trimmed payload t He).
    apply nonempty_true in Hne. now rewrite Hne.
Qed.

Lemma snippet_fallback_witness :
  fetch_message_fields ascii_lower flaky_mailbox (lit "C") (State [] []) =
  Some (Ok (lit "Offer", [], lit "see attached"), State [] [])
  /\ fetch_message_fields ascii_lower flaky_mailbox (lit "A") (State [] []) =
     Some (Ok (lit "Hello", lit "x@example.org", lit "a"), State [] []).
Proof.
  split.
  - apply (proj1 (proj1 (snippet_fallback (list row) ascii_lower flaky_mailbox
                    (lit "C") (State [] []) attachment_only [] eq_refl)
                    eq_refl)).
  - apply (proj2 (snippet_fallback (list row) ascii_lower flaky_mailbox
                    (lit "A") (State [] []) (plain_message "Hello" "YQ==") []
                    eq_refl)
             (lit "a") eq_refl).
    discriminate.
Defined.

(* ===================================================================== *)
(** * Message lister *)
(* ===================================================================== *)

Lemma list_pages_serves (W : Type) (gmail : gmail_service W) (label_id : str)
      (w : W) (tok : option str) (pages : list list_response) (w' : W) :
  serves gmail label_id w tok pages w' ->
  forall fuel ids out,
    (length pages <= fuel ->
     list_pages fuel gmail label_id tok ids (State w out) =
     Some (Ok (ids ++ concat (map page_ids pages)), State w' out))
    /\ (fuel < length pages ->
        list_pages fuel gmail label_id tok ids (State w out) = None).
Proof.
  induction 1 as [w tok resp w' Hreq Hlast
                 | w tok resp w1 pages w' Hreq Hmore _ IH];
    intros fuel ids out; (split; intros Hfuel; simpl in Hfuel).
  - destruct fuel as [|fuel]; [lia|].
    simpl. unfold bind, execute. simpl. rewrite Hreq, Hlast.
    unfold ret, page_ids. simpl. now rewrite app_nil_r.
  - destruct fuel as [|fuel]; [reflexivity | lia].
  - destruct fuel as [|fuel]; [lia|].
    simpl. unfold bind, execute. simpl. rewrite Hreq, Hmore.
    rewrite (proj1 (IH fuel _ out)) by lia.
    now rewrite <- app_assoc.
  - destruct fuel as [|fuel]; [reflexivity|].
    simpl. unfold bind, execute. simpl. rewrite Hreq, Hmore.
    apply (proj2 (IH fuel _ out)). lia.
Qed.

Lemma pagination_pages (W : Type) (gmail : gmail_service W) (label_id : str)
      (w : W) (out : list str) (pages : list list_response) (w' : W) :
  serves gmail label_id w None pages w' ->
  (forall fuel,
      length pages <= fuel ->
      list_message_ids fuel gmail label_id (State w out) =
      Some (Ok (concat (map page_ids pages)), State w' out))
  /\ (forall fuel,
         fuel < length pages ->
         list_message_ids fuel gmail label_id (State w out) = None).
Proof.
  intros H. unfold list_message_ids. split; intros fuel Hfuel.
  - now rewrite (proj1 (list_pages_serves W gmail label_id w None pages w' H
                          fuel [] out) Hfuel).
  - now apply (proj2 (list_pages_serves W gmail label_id w None pages w' H
                        fuel [] out)).
Qed.

(** C7. When the mail service answers with a sequence of pages, each with
    its identifiers and all but the last with a continuation token, the
    lister returns the identifiers of all the pages, in order and with
    nothing left out or repeated; it asks for exactly as many pages as
    there are, so it stops at the first page without a token: that many
    requests are enough, and fewer are not. *)
Theorem pagination_complete
        (W : Type) (gmail : gmail_service W) (label_id : str)
        (st : state W) (pages : list list_response) (w' : W) :
  serves gmail label_id (remote st) None pages w' ->
  (forall fuel,
      length pages <= fuel ->
      list_message_ids fuel gmail label_id st =
      Some (Ok (concat (map page_ids pages)), State w' (stdout st)))
  /\ (forall fuel,
         fuel < length pages ->
         list_message_ids fuel gmail label_id st = None).
Proof.
  intros H. destruct st as [w out]. simpl in H.
  exact (pagination_pages W gmail label_id w out pages w' H).
Qed.

Lemma three_pages_served :
  serves three_pages (lit "L1") 0 None
    [ListResponse (Some [MessageRef (lit "A"); MessageRef (lit "B")])
                  (Some (lit "t1"));
     ListResponse (Some [MessageRef (lit "C")]) (Some (lit "t2"));
     ListResponse (Some [MessageRef (lit "D")]) None] 3.
Proof.
  eapply serves_more; [reflexivity | reflexivity |].
  eapply serves_more; [reflexivity | reflexivity |].
  eapply serves_last; reflexivity.
Qed.

Lemma pagination_complete_witness :
  list_message_ids 3 three_pages (lit "L1") (State 0 []) =
  Some (Ok [lit "A"; lit "B"; lit "C"; lit "D"], State 3 [])
  /\ list_message_ids 2 three_pages (lit "L1") (State 0 []) = None.
Proof.
  pose proof (pagination_complete nat three_pages (lit "L1") (State 0 []) _ 3
                three_pages_served) as [Hok Hshort].
  split.
  - apply (Hok 3). simpl. lia.
  - apply (Hshort 2). simpl. lia.
Defined.

(* ===================================================================== *)
(** * Orchestrator *)
(* ===================================================================== *)

Lemma bind_ok {W A B : Type} (m : io W A) (k : A -> io W B)
      (st : state W) (a : A) (st' : state W) :
  m st = Some (Ok a, st') -> bind m k st = k a st'.
Proof. unfold bind. now intros ->. Qed.

Lemma fetch_run (W : Type) (lower : str -> str) (gmail : gmail_service W)
      (mid : str) (w : W) (out : list str) :
  fetch_message_fields lower gmail mid (State w out) =
  match messages_get gmail mid w with
  | (Ok msg, w1) => Some (message_fields lower msg, State w1 out)
  | (Raise e, w1) => Some (Raise e, State w1 out)
  end.
Proof.
  unfold fetch_message_fields, bind, execute, lift. simpl.
  destruct (messages_get gmail mid w) as [[msg|e] w1]; [|reflexivity].
  now destruct (message_fields lower msg).
Qed.

(** The loop over the listed messages: a row for each success, a line for
    each remote error, in the order of the list. *)
Lemma collect_rows_fetches (W : Type) (lower : str -> str)
      (gmail : gmail_service W) (w : W) (ids : list str)
      (outs : list (result (str * str * str))) (w' : W) :
  fetches lower gmail w ids outs w' ->
  forall rows out,
    collect_rows lower gmail ids rows (State w out) =
    Some (Ok (rows ++ rows_of outs), State w' (out ++ skipped_lines ids outs)).
Proof.
  induction 1 as [w
                 | w mid msg w1 fields rest outs w' Hget Hfields _ IH
                 | w mid e w1 rest outs w' Hget _ IH];
    intros rows out.
  - simpl. unfold ret. now rewrite !app_nil_r.
  - simpl. unfold bind at 1. unfold try_except_HttpError.
    unfold bind at 1. rewrite fetch_run, Hget, Hfields.
    destruct fields as [[subject sender] body]. unfold ret at 1.
    rewrite IH. simpl. now rewrite <- app_assoc.
  - simpl. unfold bind at 1. unfold try_except_HttpError.
    unfold bind at 1. rewrite fetch_run, Hget.
    unfold bind at 1. unfold print, ret. simpl.
    rewrite IH. now rewrite <- app_assoc.
Qed.

(** A whole run: the label is found, the messages are listed and fetched,
    and the run ends with the rows of the successes handed to the
    spreadsheet client. *)
Lemma main_run (W : Type) (lower : str -> str) (gmail : gmail_service W)
      (sheets : sheets_service W) (fuel : nat) (w0 w1 w2 w3 : W)
      (out : list str) (labels : option (list label)) (label_id : str)
      (pages : list list_response)
      (outs : list (result (str * str * str))) :
  labels_list gmail w0 = (Ok labels, w1) ->
  find_label (from_key [] labels) (lit "internships") = Some label_id ->
  label_id <> [] ->
  serves gmail label_id w1 None pages w2 ->
  length pages <= fuel ->
  fetches lower gmail w2 (concat (map page_ids pages)) outs w3 ->
  main lower fuel gmail sheets (State w0 out) =
  bind (append_rows_to_sheet sheets (rows_of outs))
       (fun _ => print (lit "Done."))
       (State w3 (out ++ [found_line (length (concat (map page_ids pages)))]
                      ++ skipped_lines (concat (map page_ids pages)) outs)).
Proof.
  intros Hlab Hfind Hne Hserves Hfuel Hfetch.
  unfold main.
  rewrite (bind_ok (get_label_id gmail (lit "internships")) _ (State w0 out)
             (Some label_id) (State w1 out)).
  2:{ unfold get_label_id, bind, execute, ret. cbn [remote stdout].
      now rewrite Hlab, Hfind. }
  cbn [truthy from_key]. apply nonempty_true in Hne. rewrite Hne.
  cbn [negb].
  rewrite (bind_ok (list_message_ids fuel gmail label_id) _ (State w1 out)
             (concat (map page_ids pages)) (State w2 out)).
  2:{ exact (proj1 (pagination_pages W gmail label_id w1 out pages w2 Hserves)
               fuel Hfuel). }
  rewrite (bind_ok (print _) _ (State w2 out) tt
             (State w2 (out ++ [found_line (length (concat (map page_ids pages)))])))
    by reflexivity.
  rewrite (bind_ok (collect_rows lower gmail _ []) _ _ (rows_of outs)
             (State w3 ((out ++ [found_line (length (concat (map page_ids pages)))])
                        ++ skipped_lines (concat (map page_ids pages)) outs))).
  2:{ now rewrite (collect_rows_fetches W lower gmail w2 _ outs w3 Hfetch). }
  now rewrite <- app_assoc.
Qed.

Lemma skipped_lines_text (ids : list str)
      (outs : list (result (str * str * str))) :
  skipped_lines ids outs =
  map (fun f => lit "Skipping message " ++ fst f
                ++ lit " due to API error: " ++ snd f)
      (failures ids outs).
Proof.
  revert outs. induction ids as [|mid ids IH]; intros [|o outs];
    try reflexivity.
  destruct o as [fields|[e| | |]]; cbn [skipped_lines failures map];
    rewrite IH; reflexivity.
Qed.

Lemma found_line_text (n : nat) :
  found_line n =
  lit "Found " ++ str_of_nat n ++ lit " messages under label 'internships'.".
Proof. reflexivity. Qed.

(** C6. A run in which the label is found and the listed messages are
    [A], [B] and [C], where fetching [B] raises a remote error and the
    other two are fetched and read: after the count of the messages, the
    line [Skipping message B due to API error: e], with the identifier of
    [B] and the text of the error in it, is printed, and the run goes on to
    hand the spreadsheet client exactly the row of [A] and the row of [C],
    in this order.  In general the rows handed over are those of the
    messages that were fetched, in the order of the list, with nothing in
    the place of a message that failed, and one such line is printed for
    each failure, in the order of the list. *)
Theorem partial_failure_isolation
        (W : Type) (lower : str -> str) (gmail : gmail_service W)
        (sheets : sheets_service W) (fuel : nat) (w0 w1 w2 : W)
        (out : list str) (labels : option (list label)) (label_id : str)
        (pages : list list_response) :
  labels_list gmail w0 = (Ok labels, w1) ->
  find_label (from_key [] labels) (lit "internships") = Some label_id ->
  label_id <> [] ->
  serves gmail label_id w1 None pages w2 ->
  length pages <= fuel ->
  (forall A B C mA mC subjectA senderA bodyA subjectC senderC bodyC
          e wA wB wC,
      concat (map page_ids pages) = [A; B; C] ->
      messages_get gmail A w2 = (Ok mA, wA) ->
      message_fields lower mA = Ok (subjectA, senderA, bodyA) ->
      messages_get gmail B wA = (Raise (HttpError e), wB) ->
      messages_get gmail C wB = (Ok mC, wC) ->
      message_fields lower mC = Ok (subjectC, senderC, bodyC) ->
      main lower fuel gmail sheets (State w0 out) =
      bind (execute (values_append sheets SPREADSHEET_ID SHEET_RANGE
                                   [[subjectA; senderA; bodyA];
                                    [subjectC; senderC; bodyC]]))
           (fun _ => print (lit "Done."))
           (State wC
              (out ++ [lit "Found 3 messages under label 'internships'.";
                       lit "Skipping message " ++ B
                       ++ lit " due to API error: " ++ e])))
  /\ (forall outs w3,
         fetches lower gmail w2 (concat (map page_ids pages)) outs w3 ->
         main lower fuel gmail sheets (State w0 out) =
         bind (append_rows_to_sheet sheets (rows_of outs))
              (fun _ => print (lit "Done."))
              (State w3
                 (out ++ [lit "Found "
                          ++ str_of_nat (length (concat (map page_ids pages)))
                          ++ lit " messages under label 'internships'."]
                      ++ map (fun f => lit "Skipping message " ++ fst f
                                       ++ lit " due to API error: " ++ snd f)
                             (failures (concat (map page_ids pages)) outs)))).
Proof.
  intros Hlab Hfind Hne Hserves Hfuel. split.
  - intros A B C mA mC subjectA senderA bodyA subjectC senderC bodyC
           e wA wB wC Hids HA HfA HB HC HfC.
    assert (Hfetch : fetches lower gmail w2 (concat (map page_ids pages))
                       [Ok (subjectA, senderA, bodyA); Raise (HttpError e);
                        Ok (subjectC, senderC, bodyC)] wC).
    { rewrite Hids.
      eapply fetches_ok; [exact HA | exact HfA |].
      eapply fetches_error; [exact HB |].
      eapply fetches_ok; [exact HC | exact HfC |].
      constructor. }
    rewrite (main_run W lower gmail sheets fuel w0 w1 w2 wC out labels
               label_id pages _ Hlab Hfind Hne Hserves Hfuel Hfetch).
    rewrite Hids. reflexivity.
  - intros outs w3 Hfetch.
    rewrite <- skipped_lines_text, <- found_line_text.
    exact (main_run W lower gmail sheets fuel w0 w1 w2 w3 out labels
             label_id pages outs Hlab Hfind Hne Hserves Hfuel Hfetch).
Qed.

Lemma flaky_mailbox_served :
  serves flaky_mailbox (lit "L1") [] None
    [ListResponse
       (Some [MessageRef (lit "A"); MessageRef (lit "B"); MessageRef (lit "C")])
       None] [].
Proof. apply serves_last; reflexivity. Qed.

Lemma partial_failure_isolation_witness :
  main ascii_lower 1 flaky_mailbox plain_sheet (State [] []) =
  Some (Ok tt,
        State [[lit "Hello"; lit "x@example.org"; lit "a"];
               [lit "Offer"; []; lit "see attached"]]
              [lit "Found 3 messages under label 'internships'.";
               lit "Skipping message B due to API error: 500";
               lit "Done."]).
Proof.
  rewrite (proj1 (partial_failure_isolation (list row) ascii_lower
                    flaky_mailbox plain_sheet 1 [] [] [] [] _ (lit "L1") _
                    eq_refl eq_refl ltac:(discriminate)
                    flaky_mailbox_served (le_n 1))
             (lit "A") (lit "B") (lit "C")
             (plain_message "Hello" "YQ==") attachment_only
             (lit "Hello") (lit "x@example.org") (lit "a")
             (lit "Offer") [] (lit "see attached")
             (lit "500") [] [] []
             eq_refl eq_refl eq_refl eq_refl eq_refl eq_refl).
  reflexivity.
Defined.

(* ===================================================================== *)
(** * Decoding *)
(* ===================================================================== *)

Section CodecFacts.

Import Codec.
Local Open Scope N_scope.

Ltac Zify.zify_post_hook ::= Z.to_euclidean_division_equations.

Lemma forall_below (P : N -> bool) (n : nat) :
  forallb P (map N.of_nat (seq 0 n)) = true ->
  forall x, x < N.of_nat n -> P x = true.
Proof.
  intros H x Hx. rewrite forallb_forall in H. apply H.
  rewrite <- (N2Nat.id x). apply in_map, in_seq. lia.
Qed.

Lemma lor_continuation (x : N) : x < 64 -> N.lor 0x80 x = 0x80 + x.
Proof.
  intros H. apply N.eqb_eq.
  apply (forall_below (fun x => N.lor 0x80 x =? 0x80 + x) 64);
    [vm_compute; reflexivity | exact H].
Qed.

Lemma lor_lead2 (x : N) : x < 32 -> N.lor 0xC0 x = 0xC0 + x.
Proof.
  intros H. apply N.eqb_eq.
  apply (forall_below (fun x => N.lor 0xC0 x =? 0xC0 + x) 32);
    [vm_compute; reflexivity | exact H].
Qed.

Lemma lor_lead3 (x : N) : x < 16 -> N.lor 0xE0 x = 0xE0 + x.
Proof.
  intros H. apply N.eqb_eq.
  apply (forall_below (fun x => N.lor 0xE0 x =? 0xE0 + x) 16);
    [vm_compute; reflexivity | exact H].
Qed.

Lemma lor_lead4 (x : N) : x < 8 -> N.lor 0xF0 x = 0xF0 + x.
Proof.
  intros H. apply N.eqb_eq.
  apply (forall_below (fun x => N.lor 0xF0 x =? 0xF0 + x) 8);
    [vm_compute; reflexivity | exact H].
Qed.

Lemma low_six_bits (c : N) : N.land c 0x3F = c mod 64.
Proof. exact (N.land_ones c 6). Qed.

(** The encoder in arithmetic. *)
Lemma encode_char_arith (c : N) :
  c < 0x110000 ->
  encode_char c =
  if c <? 0x80 then [c]
  else if c <? 0x800 then [0xC0 + c / 64; 0x80 + c mod 64]
  else if c <? 0x10000 then
    [0xE0 + c / 4096; 0x80 + (c / 64) mod 64; 0x80 + c mod 64]
  else
    [0xF0 + c / 262144; 0x80 + (c / 4096) mod 64;
     0x80 + (c / 64) mod 64; 0x80 + c mod 64].
Proof.
  intros Hc. unfold encode_char.
  rewrite !low_six_bits, !N.shiftr_div_pow2.
  change (2 ^ 6) with 64. change (2 ^ 12) with 4096.
  change (2 ^ 18) with 262144.
  rewrite !lor_continuation by (apply N.mod_lt; discriminate).
  destruct (N.ltb_spec c 0x80); [reflexivity|].
  destruct (N.ltb_spec c 0x800); [now rewrite lor_lead2 by lia|].
  destruct (N.ltb_spec c 0x10000); [now rewrite lor_lead3 by lia|].
  now rewrite lor_lead4 by lia.
Qed.

Local Opaque N.ltb N.leb N.eqb N.add N.sub N.mul N.div N.modulo N.shiftl.

(** Decide the tests of the decoder one at a time, dropping at once the
    branches that the bounds at hand exclude. *)
Ltac split_tests :=
  repeat (match goal with
          | |- context [N.ltb ?a ?b] => destruct (N.ltb_spec a b)
          | |- context [N.leb ?a ?b] => destruct (N.leb_spec a b)
          | |- context [N.eqb ?a ?b] => destruct (N.eqb_spec a b)
          end;
          cbn [negb andb orb]; try (exfalso; lia)).

(** The shifts of the decoder as products. *)
Ltac arith_form :=
  rewrite ?N.shiftl_mul_pow2;
  change (2 ^ 6) with 64; change (2 ^ 12) with 4096;
  change (2 ^ 18) with 262144.

(** The decoder reads back what the encoder wrote. *)
Lemma decode_encode_char (h : errors) (c : N) (rest : bytes) :
  scalar c ->
  decode_utf8 h (encode_char c ++ rest) = c :: decode_utf8 h rest.
Proof.
  intros [Hc Hs]. rewrite (encode_char_arith c Hc).
  destruct (N.ltb_spec c 0x80) as [H1|H1];
    [|destruct (N.ltb_spec c 0x800) as [H2|H2];
      [|destruct (N.ltb_spec c 0x10000) as [H3|H3]]];
    cbn [app decode_utf8]; unfold is_continuation;
    rewrite ?N.shiftl_mul_pow2;
    change (2 ^ 6) with 64; change (2 ^ 12) with 4096;
    change (2 ^ 18) with 262144;
    split_tests; f_equal; lia.
Qed.

Lemma decode_utf8_bytes (h : errors) (s : str) :
  Forall scalar s -> decode_utf8 h (utf8_bytes s) = s.
Proof.
  induction 1 as [|c s Hc _ IH]; [reflexivity|].
  unfold utf8_bytes in *. cbn [flat_map].
  now rewrite decode_encode_char, IH.
Qed.

Lemma subseq_nil_l {A : Type} (l : list A) : subseq [] l.
Proof. induction l; constructor; assumption. Qed.

Lemma subseq_refl {A : Type} (l : list A) : subseq l l.
Proof. induction l; constructor; assumption. Qed.

(** A sequence that the decoder accepts is the encoding of what it gives. *)
Lemma accepted1 (ch : N) : ch < 0x80 -> encode_char ch = [ch].
Proof.
  intros H. rewrite encode_char_arith by lia.
  destruct (N.ltb_spec ch 0x80); [reflexivity | lia].
Qed.

Lemma accepted2 (ch ch2 : N) :
  0xC2 <= ch < 0xE0 -> 0x80 <= ch2 < 0xC0 ->
  encode_char (ch * 64 + ch2 - 0x3080) = [ch; ch2].
Proof.
  intros H1 H2. rewrite encode_char_arith by lia.
  split_tests. repeat (f_equal; try lia).
Qed.

Lemma accepted3 (ch ch2 ch3 : N) :
  0xE0 <= ch < 0xF0 -> 0x80 <= ch2 < 0xC0 -> 0x80 <= ch3 < 0xC0 ->
  (ch = 0xE0 -> 0xA0 <= ch2) ->
  encode_char (ch * 4096 + ch2 * 64 + ch3 - 0xE2080) = [ch; ch2; ch3].
Proof.
  intros H1 H2 H3 H4. rewrite encode_char_arith by lia.
  split_tests. repeat (f_equal; try lia).
Qed.

Lemma accepted4 (ch ch2 ch3 ch4 : N) :
  0xF0 <= ch < 0xF5 -> 0x80 <= ch2 < 0xC0 -> 0x80 <= ch3 < 0xC0 ->
  0x80 <= ch4 < 0xC0 ->
  (ch = 0xF0 -> 0x90 <= ch2) -> (ch = 0xF4 -> ch2 < 0x90) ->
  encode_char (ch * 262144 + ch2 * 4096 + ch3 * 64 + ch4 - 0x3C82080)
  = [ch; ch2; ch3; ch4].
Proof.
  intros H1 H2 H3 H4 H5 H6. rewrite encode_char_arith by lia.
  split_tests. repeat (f_equal; try lia).
Qed.

(** What the decoder keeps, encoded again, is the input with bytes left
    out: the handler [Ignore] drops what is not valid and adds nothing. *)
Lemma decode_ignore_subseq_upto (n : nat) :
  forall s : bytes,
    (length s <= n)%nat ->
    subseq (utf8_bytes (decode_utf8 Ignore s)) s.
Proof.
  induction n as [|n IH]; intros s Hlen.
  - destruct s; [constructor | simpl in Hlen; lia].
  - destruct s as [|ch s1]; [constructor|].
    assert (IH1 : subseq (utf8_bytes (decode_utf8 Ignore s1)) s1)
      by (apply IH; simpl in Hlen; lia).
    cbn [decode_utf8]. unfold is_continuation.
    destruct (N.ltb_spec ch 0x80).
    { unfold utf8_bytes. cbn [flat_map]. rewrite accepted1 by assumption.
      now apply subseq_keep. }
    destruct (N.ltb_spec ch 0xC2).
    { cbn [on_error]. now apply subseq_drop. }
    destruct (N.ltb_spec ch 0xE0).
    { destruct s1 as [|ch2 s2]; [apply subseq_nil_l|].
      split_tests; cbn [on_error]; try (now apply subseq_drop).
      arith_form. unfold utf8_bytes. cbn [flat_map].
      replace (ch * 64 + ch2 - (0xC0 * 64 + 0x80))
        with (ch * 64 + ch2 - 0x3080) by lia.
      rewrite accepted2 by lia.
      do 2 apply subseq_keep. apply IH. simpl in Hlen. lia. }
    destruct (N.ltb_spec ch 0xF0).
    { destruct s1 as [|ch2 s2]; [apply subseq_nil_l|].
      assert (IH2 : subseq (utf8_bytes (decode_utf8 Ignore s2)) s2)
        by (apply IH; simpl in Hlen; lia).
      split_tests; cbn [on_error]; try (now apply subseq_drop);
        (destruct s2 as [|ch3 s3]; [apply subseq_nil_l|]);
        split_tests; cbn [on_error];
        try (now do 2 apply subseq_drop);
        arith_form; unfold utf8_bytes; cbn [flat_map];
        replace (ch * 4096 + ch2 * 64 + ch3 - (0xE0 * 4096 + 0x80 * 64 + 0x80))
          with (ch * 4096 + ch2 * 64 + ch3 - 0xE2080) by lia;
        rewrite accepted3 by lia;
        do 3 apply subseq_keep; apply IH; simpl in Hlen; lia. }
    destruct (N.ltb_spec ch 0xF5).
    { destruct s1 as [|ch2 s2]; [apply subseq_nil_l|].
      assert (IH2 : subseq (utf8_bytes (decode_utf8 Ignore s2)) s2)
        by (apply IH; simpl in Hlen; lia).
      split_tests; cbn [on_error]; try (now apply subseq_drop);
        (destruct s2 as [|ch3 s3]; [apply subseq_nil_l|]);
        assert (IH3 : subseq (utf8_bytes (decode_utf8 Ignore s3)) s3)
          by (apply IH; simpl in Hlen; lia);
        split_tests; cbn [on_error];
        try (now do 2 apply subseq_drop);
        (destruct s3 as [|ch4 s4]; [apply subseq_nil_l|]);
        split_tests; cbn [on_error];
        try (now do 3 apply subseq_drop);
        arith_form; unfold utf8_bytes; cbn [flat_map];
        replace (ch * 262144 + ch2 * 4096 + ch3 * 64 + ch4
                 - (0xF0 * 262144 + 0x80 * 4096 + 0x80 * 64 + 0x80))
          with (ch * 262144 + ch2 * 4096 + ch3 * 64 + ch4 - 0x3C82080) by lia;
        rewrite accepted4 by lia;
        do 4 apply subseq_keep; apply IH; simpl in Hlen; lia. }
    cbn [on_error]. now apply subseq_drop.
Qed.

Lemma decode_ignore_subseq (s : bytes) :
  subseq (utf8_bytes (decode_utf8 Ignore s)) s.
Proof. apply (decode_ignore_subseq_upto (length s)). lia. Qed.

End CodecFacts.

Section DroppedBytes.

Import Codec.
Local Open Scope N_scope.

Ltac Zify.zify_post_hook ::= Z.to_euclidean_division_equations.

Local Opaque N.ltb N.leb N.eqb N.add N.sub N.mul N.div N.modulo N.shiftl.

Ltac split_tests :=
  repeat (match goal with
          | |- context [N.ltb ?a ?b] => destruct (N.ltb_spec a b)
          | |- context [N.leb ?a ?b] => destruct (N.leb_spec a b)
          | |- context [N.eqb ?a ?b] => destruct (N.eqb_spec a b)
          end;
          cbn [negb andb orb]; try (exfalso; lia)).

Ltac arith_form :=
  rewrite ?N.shiftl_mul_pow2;
  change (2 ^ 6) with 64; change (2 ^ 12) with 4096;
  change (2 ^ 18) with 262144.

(** A continuation byte at the head of the input starts nothing. *)
Lemma decode_continuation_first (c : N) (s : bytes) :
  0x80 <= c < 0xC0 ->
  decode_utf8 Ignore (c :: s) = decode_utf8 Ignore s.
Proof.
  intros H. cbn [decode_utf8].
  destruct (N.ltb_spec c 0x80); [lia|].
  destruct (N.ltb_spec c 0xC2); [reflexivity | lia].
Qed.

(** A byte at which no encoding of a scalar value starts is dropped, and
    the decoding goes on with the byte after it. *)
Lemma decode_ignore_drops_byte (b : N) (rest : bytes) :
  ~ encoding_starts (b :: rest) ->
  decode_utf8 Ignore (b :: rest) = decode_utf8 Ignore rest.
Proof.
  intros Hno. cbn [decode_utf8]. unfold is_continuation.
  destruct (N.ltb_spec b 0x80).
  { exfalso. apply Hno. exists b, rest. split; [unfold scalar; lia|].
    now rewrite accepted1. }
  destruct (N.ltb_spec b 0xC2); [reflexivity|].
  destruct (N.ltb_spec b 0xE0).
  { destruct rest as [|ch2 s2]; [reflexivity|].
    split_tests; cbn [on_error]; try reflexivity.
    exfalso. apply Hno. exists (b * 64 + ch2 - 0x3080), s2.
    split; [unfold scalar; lia|]. now rewrite accepted2 by lia. }
  destruct (N.ltb_spec b 0xF0).
  { destruct rest as [|ch2 s2]; [reflexivity|].
    split_tests; cbn [on_error]; try reflexivity;
      (destruct s2 as [|ch3 s3];
       [now rewrite decode_continuation_first by lia|]);
      split_tests; cbn [on_error];
      try (now rewrite (decode_continuation_first ch2) by lia);
      exfalso; apply Hno;
      exists (b * 4096 + ch2 * 64 + ch3 - 0xE2080), s3;
      (split; [unfold scalar; lia|]); now rewrite accepted3 by lia. }
  destruct (N.ltb_spec b 0xF5); [|reflexivity].
  destruct rest as [|ch2 s2]; [reflexivity|].
  split_tests; cbn [on_error]; try reflexivity;
    (destruct s2 as [|ch3 s3];
     [now rewrite decode_continuation_first by lia|]);
    split_tests; cbn [on_error];
    try (now rewrite (decode_continuation_first ch2) by lia);
    (destruct s3 as [|ch4 s4];
     [now rewrite (decode_continuation_first ch2),
        (decode_continuation_first ch3) by lia|]);
    split_tests; cbn [on_error];
    try (now rewrite (decode_continuation_first ch2),
           (decode_continuation_first ch3) by lia);
    exfalso; apply Hno;
    exists (b * 262144 + ch2 * 4096 + ch3 * 64 + ch4 - 0x3C82080), s4;
    (split; [unfold scalar; lia|]); now rewrite accepted4 by lia.
Qed.

(** A byte that no encoding can start with. *)
Lemma stray_byte_starts_nothing (b : N) (rest : bytes) :
  0x80 <= b < 0xC2 \/ 0xF5 <= b ->
  ~ encoding_starts (b :: rest).
Proof.
  intros Hb (c & tail & [Hc _] & E).
  rewrite (encode_char_arith c Hc) in E.
  destruct (N.ltb_spec c 0x80); [injection E as E _; lia|].
  destruct (N.ltb_spec c 0x800); [injection E as E _; lia|].
  destruct (N.ltb_spec c 0x10000); injection E as E _; lia.
Qed.

End DroppedBytes.

Lemma decode_utf8_prefix (h : Codec.errors) (s : str) (rest : bytes) :
  Forall scalar s ->
  Codec.decode_utf8 h (Codec.utf8_bytes s ++ rest) =
  s ++ Codec.decode_utf8 h rest.
Proof.
  induction 1 as [|c s Hc _ IH]; [reflexivity|].
  unfold Codec.utf8_bytes in *. cbn [flat_map].
  now rewrite <- app_assoc, decode_encode_char, IH.
Qed.

(** C4, as claimed, fails: the body [_w==] is the single byte [0xFF],
    which is not valid UTF-8; the decoder puts nothing in its place, where
    a replacing decoder would put U+FFFD. *)
Lemma undecodable_byte_is_not_replaced :
  (raw <- Codec.encode_utf8 (lit "_w==") ;; Codec.urlsafe_b64decode raw)%result
  = Ok [255%N]
  /\ decode_part (lit "_w==") = Ok []
  /\ decode_part_replacing (lit "_w==") = Ok [65533%N]
  /\ decode_part (lit "_w==") <> decode_part_replacing (lit "_w==")
  /\ extract (leaf text_plain "_w==") = Ok [].
Proof. vm_compute. repeat split; discriminate. Qed.

(** C4, amended. An inline body is decoded as URL-safe base64 and then as
    UTF-8 with the undecodable bytes dropped, not replaced.  The UTF-8
    step is a total function of the byte sequence, fixed by what it does
    at the head of the input: the encoding of a scalar value gives that
    value, a byte at which no encoding starts is left out, and in both
    cases the decoding goes on with what follows.  So a stray byte between
    two encoded texts leaves the two texts, joined; what is kept, encoded
    again, is the byte sequence with some bytes left out, and it is the
    whole text when the bytes are the encoding of a text.  Whenever the
    base64 step gives bytes, [decode_part] gives the text decoded so, and a
    [text/plain] part with that body returns it trimmed. *)
Theorem decode_part_drops_undecodable :
  (forall bs : bytes,
      subseq (Codec.utf8_bytes (Codec.decode_utf8 Codec.Ignore bs)) bs
      /\ (forall s, Forall scalar s -> bs = Codec.utf8_bytes s ->
                    Codec.decode_utf8 Codec.Ignore bs = s))
  /\ Codec.decode_utf8 Codec.Ignore [] = []
  /\ (forall c rest,
         scalar c ->
         Codec.decode_utf8 Codec.Ignore (Codec.encode_char c ++ rest) =
         c :: Codec.decode_utf8 Codec.Ignore rest)
  /\ (forall b rest,
         ~ encoding_starts (b :: rest) ->
         Codec.decode_utf8 Codec.Ignore (b :: rest) =
         Codec.decode_utf8 Codec.Ignore rest)
  /\ (forall s1 s2 b,
         Forall scalar s1 -> Forall scalar s2 ->
         (0x80 <= b < 0xC2 \/ 0xF5 <= b)%N ->
         Codec.decode_utf8 Codec.Ignore
           (Codec.utf8_bytes s1 ++ b :: Codec.utf8_bytes s2) = s1 ++ s2)
  /\ (forall (data_b64 : str) (raw bs : bytes),
         Codec.encode_utf8 data_b64 = Ok raw ->
         Codec.urlsafe_b64decode raw = Ok bs ->
         decode_part data_b64 = Ok (Codec.decode_utf8 Codec.Ignore bs)
         /\ (forall p,
                plain_leaf p = true -> data_of p = Some data_b64 ->
                extract p = Ok (strip (Codec.decode_utf8 Codec.Ignore bs)))).
Proof.
  split; [|split; [|split; [|split; [|split]]]].
  - intros bs. split.
    + apply decode_ignore_subseq.
    + intros s Hs ->. now apply decode_utf8_bytes.
  - reflexivity.
  - intros c rest Hc. now apply decode_encode_char.
  - apply decode_ignore_drops_byte.
  - intros s1 s2 b H1 H2 Hb.
    rewrite (decode_utf8_prefix Codec.Ignore s1 _ H1).
    rewrite (decode_ignore_drops_byte b _ (stray_byte_starts_nothing b _ Hb)).
    now rewrite (decode_utf8_bytes Codec.Ignore s2 H2).
  - intros data_b64 raw bs Hraw Hbs.
    assert (E : decode_part data_b64 = Ok (Codec.decode_utf8 Codec.Ignore bs)).
    { unfold decode_part. rewrite Hraw. simpl. now rewrite Hbs. }
    split; [exact E|].
    intros p Hp Hd. rewrite (extract_plain_leaf p Hp).
    unfold plain_text. rewrite Hd. simpl. now rewrite E.
Qed.

Lemma scalar_h_i : Forall scalar [104%N] /\ Forall scalar [105%N].
Proof. split; repeat constructor; unfold scalar; lia. Qed.

Lemma decode_part_drops_undecodable_witness :
  decode_part stray_byte_inside = Ok (lit "hi")
  /\ extract (Payload (Some text_plain) (Some (Body (Some stray_byte_inside)))
                      None None) = Ok (lit "hi")
  /\ Codec.decode_utf8 Codec.Ignore [104%N; 255%N; 105%N] = lit "hi".
Proof.
  destruct decode_part_drops_undecodable as (_ & _ & _ & _ & Hstray & Hpart).
  destruct (Hpart stray_byte_inside (lit "aP9p") [104%N; 255%N; 105%N]
              eq_refl eq_refl) as [Hd Hp].
  split; [exact Hd|]. split.
  - exact (Hp (Payload (Some text_plain) (Some (Body (Some stray_byte_inside)))
                       None None) eq_refl eq_refl).
  - exact (Hstray [104%N] [105%N] 255%N (proj1 scalar_h_i) (proj2 scalar_h_i)
             (or_intror (proj1 (N.leb_le 245 255) eq_refl))).
Defined.

(* ===================================================================== *)
(** * Body extractor: further properties *)
(* ===================================================================== *)

(** X1. The text returned by the extractor is trimmed, whichever branch it
    comes from: a plain or html body, a nested multipart, a candidate of
    the loop. *)
Theorem extractor_returns_trimmed (p : payload) (t : str) :
  extract p = Ok t -> strip t = t.
Proof. apply extract_trimmed. Qed.

Lemma extractor_returns_trimmed_witness :
  extract (leaf text_plain "IGEg") = Ok (lit "a")
  /\ strip (lit "a") = lit "a".
Proof.
  split; [reflexivity|].
  exact (extractor_returns_trimmed (leaf text_plain "IGEg") (lit "a") eq_refl).
Defined.

Lemma text_of_a_child (mt : option str) (b : option body_t)
      (children : list payload) (hs : option (list header))
      (c : payload) (t : str) :
  In c children -> text_of_a_part c t ->
  text_of_a_part (Payload mt b (Some children) hs) t.
Proof.
  intros Hin (q & Hq & Ht). exists q. split; [|exact Ht].
  now apply (part_child q c mt b children hs).
Qed.

(** The loop returns the text of a part below one of the children. *)
Lemma walk_text_of_a_part (all ps : list payload) :
  (forall c, In c ps -> In c all) ->
  Forall (fun c => forall t, extract c = Ok t -> t <> [] ->
                             text_of_a_part c t) ps ->
  forall pl ht t,
    (pl = [] \/ exists c, In c all /\ text_of_a_part c pl) ->
    (ht = [] \/ exists c, In c all /\ text_of_a_part c ht) ->
    walk_parts extract ps pl ht = Ok t -> t <> [] ->
    exists c, In c all /\ text_of_a_part c t.
Proof.
  intros Hincl H. induction H as [|ch ps Hch _ IH]; intros pl ht t Hpl Hht.
  - rewrite walk_end. intros E Hne. injection E as E. subst t.
    unfold str_or in *. destruct (nonempty pl) eqn:Ep.
    + destruct Hpl as [-> | Hpl]; [discriminate | exact Hpl].
    + destruct (nonempty ht) eqn:Eh; [|contradiction].
      destruct Hht as [-> | Hht]; [discriminate | exact Hht].
  - assert (Hin : In ch all) by (apply Hincl; now left).
    assert (Hincl' : forall c, In c ps -> In c all)
      by (intros c Hc; apply Hincl; now right).
    specialize (IH Hincl').
    simpl. fold (is_multipart ch). destruct (is_multipart ch).
    + destruct (extract ch) as [sub|e] eqn:Es; simpl; [|discriminate].
      destruct (nonempty sub) eqn:En.
      * intros E Hne. injection E as E. subst t.
        exists ch. split; [exact Hin|]. now apply Hch.
      * now apply IH.
    + fold (plain_leaf ch). destruct (plain_leaf ch) eqn:Ep.
      * destruct (decode_part (from_key [] (data_of ch))) as [text|e] eqn:Ed;
          simpl; [|discriminate].
        apply IH; [|exact Hht].
        unfold str_or. destruct (nonempty (strip text)); [right | exact Hpl].
        exists ch. split; [exact Hin|]. exists ch. split; [constructor|].
        left. split; [exact Ep|]. unfold plain_text. now rewrite Ed.
      * fold (html_leaf ch). destruct (html_leaf ch) eqn:Eh.
        -- destruct (decode_part (from_key [] (data_of ch))) as [text|e] eqn:Ed;
             simpl; [|discriminate].
           apply IH; [exact Hpl|].
           unfold str_or.
           destruct (nonempty (strip_html text)); [right | exact Hht].
           exists ch. split; [exact Hin|]. exists ch. split; [constructor|].
           right. split; [exact Eh|]. unfold html_text. now rewrite Ed.
        -- now apply IH.
Qed.

Lemma extract_text_of_a_part (p : payload) :
  forall t, extract p = Ok t -> t <> [] -> text_of_a_part p t.
Proof.
  induction p as [mt b hs | mt b children hs IH] using payload_ind;
    intros t He Hne.
  - destruct (plain_leaf (Payload mt b None hs)) eqn:Ep.
    + exists (Payload mt b None hs). split; [constructor|]. left.
      split; [exact Ep|]. now rewrite <- extract_plain_leaf.
    + destruct (html_leaf (Payload mt b None hs)) eqn:Eh.
      * exists (Payload mt b None hs). split; [constructor|]. right.
        split; [exact Eh|]. now rewrite <- extract_html_leaf.
      * rewrite extract_unfold in He by assumption. simpl in He.
        injection He as He. congruence.
  - destruct (plain_leaf (Payload mt b (Some children) hs)) eqn:Ep.
    + exists (Payload mt b (Some children) hs). split; [constructor|]. left.
      split; [exact Ep|]. now rewrite <- extract_plain_leaf.
    + destruct (html_leaf (Payload mt b (Some children) hs)) eqn:Eh.
      * exists (Payload mt b (Some children) hs). split; [constructor|].
        right. split; [exact Eh|]. now rewrite <- extract_html_leaf.
      * rewrite extract_unfold in He by assumption. simpl in He.
        destruct (walk_text_of_a_part children children (fun c H => H) IH
                    [] [] t (or_introl eq_refl) (or_introl eq_refl) He Hne)
          as (c & Hin & Hc).
        now apply (text_of_a_child mt b children hs c).
Qed.

(** X2. A non-empty text returned by the extractor is the text of one inline
    text part of the tree, plain or html: texts of several parts are never
    joined. *)
Theorem extractor_returns_one_part (p : payload) (t : str) :
  extract p = Ok t -> t <> [] -> text_of_a_part p t.
Proof. apply extract_text_of_a_part. Qed.

Lemma extractor_returns_one_part_witness :
  text_of_a_part nested_between (lit "b").
Proof.
  apply (extractor_returns_one_part nested_between (lit "b") eq_refl).
  discriminate.
Defined.

(** A child the loop has no branch for is passed over: the parent gives
    the same result with or without it. *)
Lemma walk_skips_other (c : payload) (pre post : list payload) :
  other_child c ->
  forall pl ht,
    walk_parts extract (pre ++ c :: post) pl ht =
    walk_parts extract (pre ++ post) pl ht.
Proof.
  intros (Hm & Hp & Hh).
  induction pre as [|a pre IH]; intros pl ht.
  - simpl. fold (is_multipart c) (plain_leaf c). rewrite Hm, Hp.
    fold (html_leaf c). now rewrite Hh.
  - simpl. destruct (startswith (mime_of a) multipart_prefix).
    + destruct (extract a) as [sub|e]; simpl; [|reflexivity].
      destruct (nonempty sub); [reflexivity | apply IH].
    + destruct (str_eqb (mime_of a) text_plain && truthy (data_of a)).
      * destruct (decode_part (from_key [] (data_of a))); simpl;
          [apply IH | reflexivity].
      * destruct (str_eqb (mime_of a) text_html && truthy (data_of a));
          [|apply IH].
        destruct (decode_part (from_key [] (data_of a))); simpl;
          [apply IH | reflexivity].
Qed.

(** X3. Below the part handed to the extractor, only children of a multipart
    type are searched: a child of another type that is no inline text part
    (an attached message, say) is passed over together with everything
    below it, so the result is the one without that child. *)
Theorem other_children_are_skipped
        (mt : option str) (b : option body_t) (hs : option (list header))
        (pre post : list payload) (c : payload) :
  other_child c ->
  extract (Payload mt b (Some (pre ++ c :: post)) hs) =
  extract (Payload mt b (Some (pre ++ post)) hs).
Proof.
  intros Hc. simpl.
  destruct (str_eqb (from_key [] mt) text_plain && truthy _); [reflexivity|].
  destruct (str_eqb (from_key [] mt) text_html && truthy _); [reflexivity|].
  now apply walk_skips_other.
Qed.

Lemma other_children_are_skipped_witness :
  extract attachment_inside =
  extract (container "multipart/mixed" [leaf text_html "PGI-eDwvYj4="])
  /\ extract attached_message = Ok (lit "hi").
Proof.
  split; [|reflexivity].
  apply (other_children_are_skipped (Some (lit "multipart/mixed")) None None
           [leaf text_html "PGI-eDwvYj4="] [] attached_message).
  repeat split.
Defined.

(** X4. A multipart part with a single child that is multipart or an inline
    text part gives what the child gives, an exception included. *)
Theorem single_child_is_transparent (p c : payload) :
  is_multipart p = true ->
  parts p = Some [c] ->
  is_multipart c = true \/ plain_leaf c = true \/ html_leaf c = true ->
  extract p = extract c.
Proof.
  intros Hp Hps Hc. rewrite (multipart_unfold p [c] Hp Hps). simpl.
  fold (is_multipart c). destruct Hc as [Hm | [Hl | Hl]].
  - rewrite Hm. destruct (extract c) as [sub|e]; simpl; [|reflexivity].
    destruct sub; reflexivity.
  - rewrite (plain_leaf_not_multipart c Hl). fold (plain_leaf c). rewrite Hl.
    rewrite (extract_plain_leaf c Hl). unfold plain_text.
    destruct (decode_part (from_key [] (data_of c))) as [text|e]; simpl;
      [|reflexivity].
    unfold str_or. now destruct (strip text).
  - rewrite (html_leaf_not_multipart c Hl). fold (plain_leaf c).
    rewrite (html_leaf_not_plain c Hl). fold (html_leaf c). rewrite Hl.
    rewrite (extract_html_leaf c Hl). unfold html_text.
    destruct (decode_part (from_key [] (data_of c))) as [text|e]; simpl;
      [|reflexivity].
    unfold str_or. now destruct (strip_html text).
Qed.

Lemma single_child_is_transparent_witness :
  extract (container "multipart/related" [two_plain]) = Ok (lit "b").
Proof.
  rewrite (single_child_is_transparent
             (container "multipart/related" [two_plain]) two_plain
             eq_refl eq_refl (or_introl eq_refl)).
  reflexivity.
Defined.

(** X5. An exception raised for a child that the loop reaches and has a branch
    for (a body that does not decode, or an exception from a nested
    multipart) is the outcome of the whole extraction, whatever candidates
    were recorded before it. *)
Theorem reached_exception_propagates
        (p c : payload) (pre post : list payload) (e : exn) :
  is_multipart p = true ->
  parts p = Some (pre ++ c :: post) ->
  Forall passes pre ->
  is_multipart c = true \/ plain_leaf c = true \/ html_leaf c = true ->
  extract c = Raise e ->
  extract p = Raise e.
Proof.
  intros Hp Hps Hpre Hc He.
  rewrite (multipart_unfold p _ Hp Hps), walk_passed by assumption.
  simpl. fold (is_multipart c). destruct Hc as [Hm | [Hl | Hl]].
  - now rewrite Hm, He.
  - rewrite (plain_leaf_not_multipart c Hl). fold (plain_leaf c). rewrite Hl.
    rewrite (extract_plain_leaf c Hl) in He. unfold plain_text in He.
    destruct (decode_part (from_key [] (data_of c))); simpl in *; congruence.
  - rewrite (html_leaf_not_multipart c Hl). fold (plain_leaf c).
    rewrite (html_leaf_not_plain c Hl). fold (html_leaf c). rewrite Hl.
    rewrite (extract_html_leaf c Hl) in He. unfold html_text in He.
    destruct (decode_part (from_key [] (data_of c))); simpl in *; congruence.
Qed.

Lemma reached_exception_propagates_witness :
  extract good_then_broken = Raise BinasciiError.
Proof.
  apply (reached_exception_propagates good_then_broken
           (leaf text_plain "Yg") [leaf text_plain "YQ=="] []).
  - reflexivity.
  - reflexivity.
  - constructor; [exact passes_leaf_a | constructor].
  - right. now left.
  - reflexivity.
Defined.

(* ===================================================================== *)
(** * Label resolver, lister and orchestrator: further properties *)
(* ===================================================================== *)

Lemma bind_raise {W A B : Type} (m : io W A) (k : A -> io W B)
      (st : state W) (e : exn) (st' : state W) :
  m st = Some (Raise e, st') -> bind m k st = Some (Raise e, st').
Proof. unfold bind. now intros ->. Qed.

Lemma find_label_skip (pre rest : list label) (name : str) :
  Forall (fun l => lab_name l <> Some name) pre ->
  find_label (pre ++ rest) name = find_label rest name.
Proof.
  induction 1 as [|l pre Hl _ IH]; [reflexivity|].
  simpl. destruct (lab_name l) as [n|]; [|exact IH].
  destruct (str_eqb n name) eqn:E; [|exact IH].
  apply str_eqb_eq in E. congruence.
Qed.

(** X7. The label resolver makes one request and returns the identifier of
    the first label whose name is exactly the name looked for, labels
    without a name or with another name (were it the same up to case)
    being passed over; it returns [None] when there is no such label. *)
Theorem get_label_id_first_exact_match
        (W : Type) (gmail : gmail_service W) (label_name : str)
        (st : state W) (labels : option (list label)) (w' : W) :
  labels_list gmail (remote st) = (Ok labels, w') ->
  (forall pre lab post,
      from_key [] labels = pre ++ lab :: post ->
      Forall (fun l => lab_name l <> Some label_name) pre ->
      lab_name lab = Some label_name ->
      get_label_id gmail label_name st =
      Some (Ok (lab_id lab), State w' (stdout st)))
  /\ (Forall (fun l => lab_name l <> Some label_name) (from_key [] labels) ->
      get_label_id gmail label_name st = Some (Ok None, State w' (stdout st))).
Proof.
  intros Hreq.
  assert (Hrun : get_label_id gmail label_name st =
                 Some (Ok (find_label (from_key [] labels) label_name),
                       State w' (stdout st))).
  { unfold get_label_id, bind, execute, ret. now rewrite Hreq. }
  rewrite Hrun. split.
  - intros pre lab post -> Hpre Hlab.
    rewrite find_label_skip by assumption. simpl.
    now rewrite Hlab, str_eqb_refl.
  - intros Hall. rewrite <- (app_nil_r (from_key [] labels)).
    now rewrite find_label_skip.
Qed.

Lemma get_label_id_first_exact_match_witness :
  get_label_id flaky_mailbox (lit "internships") (State [] []) =
  Some (Ok (Some (lit "L1")), State [] [])
  /\ get_label_id no_such_label (lit "internships") (State 0 []) =
     Some (Ok None, State 1 []).
Proof.
  split.
  - apply (proj1 (get_label_id_first_exact_match (list row) flaky_mailbox
                    (lit "internships") (State [] []) _ [] eq_refl)
             [Label (Some (lit "Inbox")) (Some (lit "L0"))]
             (Label (Some (lit "internships")) (Some (lit "L1"))) []).
    + reflexivity.
    + repeat constructor. discriminate.
    + reflexivity.
  - apply (proj2 (get_label_id_first_exact_match nat no_such_label
                    (lit "internships") (State 0 []) _ 1 eq_refl)).
    repeat constructor; discriminate.
Defined.

(** X8. A run stops before any message is listed when the label request
    raises, and when no label of the name [internships] with a non-empty
    identifier is found: the exception is the outcome of the run, nothing
    is printed and no other request is made. *)
Theorem main_stops_without_label
        (W : Type) (lower : str -> str) (gmail : gmail_service W)
        (sheets : sheets_service W) (fuel : nat) (w0 w1 : W) (out : list str) :
  (forall e,
      labels_list gmail w0 = (Raise e, w1) ->
      main lower fuel gmail sheets (State w0 out) =
      Some (Raise e, State w1 out))
  /\ (forall labels,
         labels_list gmail w0 = (Ok labels, w1) ->
         truthy (find_label (from_key [] labels) (lit "internships")) = false ->
         main lower fuel gmail sheets (State w0 out) =
         Some (Raise (RuntimeError
                        (lit "Could not find Gmail label named " ++ [34%N]
                         ++ lit "internships" ++ [34%N] ++ lit ".")),
               State w1 out)).
Proof.
  split.
  - intros e Hreq. unfold main.
    apply bind_raise. unfold get_label_id.
    apply bind_raise. unfold execute. cbn [remote stdout]. now rewrite Hreq.
  - intros labels Hreq Hnone. unfold main.
    rewrite (bind_ok (get_label_id gmail (lit "internships")) _ (State w0 out)
               (find_label (from_key [] labels) (lit "internships"))
               (State w1 out)).
    2:{ unfold get_label_id, bind, execute, ret. cbn [remote stdout].
        now rewrite Hreq. }
    rewrite Hnone. reflexivity.
Qed.

Lemma main_stops_without_label_witness :
  main ascii_lower 5 no_such_label (Sheets (fun _ _ _ w => (Ok tt, S w)))
       (State 0 []) =
  Some (Raise (RuntimeError
                 (lit "Could not find Gmail label named " ++ [34%N]
                  ++ lit "internships" ++ [34%N] ++ lit ".")),
        State 1 []).
Proof.
  apply (proj2 (main_stops_without_label nat ascii_lower no_such_label
                  (Sheets (fun _ _ _ w => (Ok tt, S w))) 5 0 1 []) _ eq_refl).
  reflexivity.
Defined.

Lemma list_pages_fails (W : Type) (gmail : gmail_service W) (label_id : str)
      (w : W) (tok : option str) (n : nat) (e : exn) (w' : W) :
  listing_fails gmail label_id w tok n e w' ->
  forall fuel ids out,
    n <= fuel ->
    list_pages fuel gmail label_id tok ids (State w out) =
    Some (Raise e, State w' out).
Proof.
  induction 1 as [w tok e w' Hreq | w tok resp w1 n e w' Hreq Hmore _ IH];
    intros fuel ids out Hfuel.
  - destruct fuel as [|fuel]; [lia|].
    simpl. unfold bind, execute. simpl. now rewrite Hreq.
  - destruct fuel as [|fuel]; [lia|].
    simpl. unfold bind, execute. simpl. rewrite Hreq, Hmore.
    apply IH. lia.
Qed.

(** X9. An exception raised by a page request is the outcome of the listing,
    and of the run: the identifiers of the pages already received are
    dropped, nothing is printed, no message is fetched and nothing is
    handed to the spreadsheet client. *)
Theorem listing_error_aborts_the_run
        (W : Type) (lower : str -> str) (gmail : gmail_service W)
        (sheets : sheets_service W) (fuel : nat) (w0 w1 w2 : W)
        (out : list str) (labels : option (list label)) (label_id : str)
        (n : nat) (e : exn) :
  labels_list gmail w0 = (Ok labels, w1) ->
  find_label (from_key [] labels) (lit "internships") = Some label_id ->
  label_id <> [] ->
  listing_fails gmail label_id w1 None n e w2 ->
  n <= fuel ->
  list_message_ids fuel gmail label_id (State w1 out) =
  Some (Raise e, State w2 out)
  /\ main lower fuel gmail sheets (State w0 out) =
     Some (Raise e, State w2 out).
Proof.
  intros Hlab Hfind Hne Hfails Hfuel.
  assert (Hlist : list_message_ids fuel gmail label_id (State w1 out) =
                  Some (Raise e, State w2 out)).
  { unfold list_message_ids.
    now apply (list_pages_fails W gmail label_id w1 None n e w2). }
  split; [exact Hlist|].
  unfold main.
  rewrite (bind_ok (get_label_id gmail (lit "internships")) _ (State w0 out)
             (Some label_id) (State w1 out)).
  2:{ unfold get_label_id, bind, execute, ret. cbn [remote stdout].
      now rewrite Hlab, Hfind. }
  cbn [truthy from_key]. apply nonempty_true in Hne. rewrite Hne.
  cbn [negb]. now apply bind_raise.
Qed.

Lemma second_page_fails_listing :
  listing_fails second_page_fails (lit "L1") 1 None 2
                (HttpError (lit "503")) 3.
Proof.
  eapply fails_later; [reflexivity | reflexivity |].
  apply fails_now. reflexivity.
Qed.

Lemma listing_error_aborts_the_run_witness :
  main ascii_lower 2 second_page_fails (Sheets (fun _ _ _ w => (Ok tt, S w)))
       (State 0 []) =
  Some (Raise (HttpError (lit "503")), State 3 []).
Proof.
  apply (listing_error_aborts_the_run nat ascii_lower second_page_fails
           (Sheets (fun _ _ _ w => (Ok tt, S w))) 2 0 1 3 [] _ (lit "L1") 2
           (HttpError (lit "503")) eq_refl eq_refl).
  - discriminate.
  - exact second_page_fails_listing.
  - constructor.
Defined.

(** X10. The lister has no bound of its own: against a service whose every
    page carries a continuation token it goes on asking, so that no number
    of requests lets it return. *)
Theorem endless_tokens_never_return
        (W : Type) (gmail : gmail_service W) (label_id : str) :
  (forall w tok,
      exists resp w',
        messages_list gmail [label_id] tok 500 w = (Ok resp, w')
        /\ truthy (nextPageToken resp) = true) ->
  forall fuel st, list_message_ids fuel gmail label_id st = None.
Proof.
  intros Hmore fuel. unfold list_message_ids.
  generalize (@None str) as tok. generalize (@nil str) as ids.
  induction fuel as [|fuel IH]; intros ids tok st; [reflexivity|].
  destruct (Hmore (remote st) tok) as (resp & w' & Hreq & Htok).
  simpl. unfold bind, execute. rewrite Hreq, Htok. apply IH.
Qed.

Lemma endless_tokens_never_return_witness :
  list_message_ids 1000 endless_pages (lit "L1") (State 0 []) = None.
Proof.
  apply (endless_tokens_never_return nat endless_pages (lit "L1")).
  intros w tok. eexists _, _. split; reflexivity.
Defined.


Lemma outcomes_counted (W : Type) (lower : str -> str)
      (gmail : gmail_service W) (w : W) (ids : list str)
      (outs : list (result (str * str * str))) (w' : W) :
  fetches lower gmail w ids outs w' ->
  length outs = length ids
  /\ length (rows_of outs) + length (failures ids outs) = length ids
  /\ Forall (fun r => length r = 3) (rows_of outs).
Proof.
  induction 1 as [w
                 | w mid msg w1 fields rest outs w' _ _ _ (IHo & IHn & IHr)
                 | w mid e w1 rest outs w' _ _ (IHo & IHn & IHr)].
  - repeat split. constructor.
  - cbn [length rows_of failures]. repeat split; [lia | lia |].
    constructor; [|exact IHr]. now destruct fields as [[? ?] ?].
  - cbn [length rows_of failures]. repeat split; [lia | lia | exact IHr].
Qed.

(** X12. The loop over the listed messages accounts for each of them
    once.  When each message is fetched or fails with a remote error, the
    loop ends with exactly the rows of the messages fetched, in the order
    of the list, each of three cells, and has printed exactly one line
    [Skipping message ... due to API error: ...] for each message that
    failed, in the order of the list, with its identifier and the text of
    its error; rows and lines together are as many as the messages. *)
Theorem every_message_accounted_for
        (W : Type) (lower : str -> str) (gmail : gmail_service W)
        (w : W) (ids : list str) (outs : list (result (str * str * str)))
        (w' : W) (out : list str) :
  fetches lower gmail w ids outs w' ->
  collect_rows lower gmail ids [] (State w out) =
  Some (Ok (rows_of outs),
        State w' (out ++ map (fun f => lit "Skipping message " ++ fst f
                                       ++ lit " due to API error: " ++ snd f)
                             (failures ids outs)))
  /\ length outs = length ids
  /\ length (rows_of outs) + length (failures ids outs) = length ids
  /\ Forall (fun r => length r = 3) (rows_of outs).
Proof.
  intros H. split; [|exact (outcomes_counted W lower gmail w ids outs w' H)].
  rewrite <- skipped_lines_text.
  exact (collect_rows_fetches W lower gmail w ids outs w' H [] out).
Qed.


Lemma flaky_mailbox_fetches :
  fetches ascii_lower flaky_mailbox [] [lit "A"; lit "B"; lit "C"]
    [Ok (lit "Hello", lit "x@example.org", lit "a");
     Raise (HttpError (lit "500"));
     Ok (lit "Offer", [], lit "see attached")] [].
Proof.
  eapply fetches_ok; [reflexivity | reflexivity |].
  eapply fetches_error; [reflexivity |].
  eapply fetches_ok; [reflexivity | reflexivity |].
  constructor.
Qed.

Lemma every_message_accounted_for_witness :
  collect_rows ascii_lower flaky_mailbox [lit "A"; lit "B"; lit "C"] []
               (State [] []) =
  Some (Ok [[lit "Hello"; lit "x@example.org"; lit "a"];
            [lit "Offer"; []; lit "see attached"]],
        State [] [lit "Skipping message B due to API error: 500"]).
Proof.
  exact (proj1 (every_message_accounted_for (list row) ascii_lower
                  flaky_mailbox [] _ _ [] [] flaky_mailbox_fetches)).
Defined.

Lemma a2b_base64_raises (s : bytes) :
  forall quad_pos leftchar pads bin e,
    Codec.a2b_base64 s quad_pos leftchar pads bin = Raise e ->
    e = BinasciiError.
Proof.
  induction s as [|c s IH]; intros quad_pos leftchar pads bin e;
    cbn [Codec.a2b_base64].
  - destruct quad_pos; congruence.
  - destruct (c =? 61)%N.
    + destruct (2 <=? quad_pos); [|apply IH].
      destruct (4 <=? quad_pos + S pads); [discriminate | apply IH].
    + destruct (Codec.urlsafe_digit c); [|apply IH].
      destruct quad_pos as [|[|[|q]]]; apply IH.
Qed.

Lemma decode_part_raises (data_b64 : str) (e : exn) :
  decode_part data_b64 = Raise e -> decoding_error e.
Proof.
  unfold decode_part, Codec.encode_utf8, Codec.urlsafe_b64decode.
  destruct (existsb Codec.is_surrogate data_b64); simpl.
  - intros E. injection E as <-. now right.
  - destruct (Codec.a2b_base64 _ 0 0 0 []) eqn:E; simpl; [discriminate|].
    intros E'. injection E' as <-. left.
    now apply a2b_base64_raises in E.
Qed.

Lemma walk_raises (ps : list payload) :
  Forall (fun c => forall e, extract c = Raise e -> decoding_error e) ps ->
  forall pl ht e,
    walk_parts extract ps pl ht = Raise e -> decoding_error e.
Proof.
  induction 1 as [|ch ps Hch _ IH]; intros pl ht e.
  - rewrite walk_end. discriminate.
  - simpl. destruct (startswith (mime_of ch) multipart_prefix).
    + destruct (extract ch) as [sub|e'] eqn:Es; simpl.
      * destruct (nonempty sub); [discriminate | apply IH].
      * intros E. injection E as <-. now apply Hch.
    + destruct (str_eqb (mime_of ch) text_plain && truthy (data_of ch)).
      * destruct (decode_part (from_key [] (data_of ch))) as [text|e'] eqn:Ed;
          simpl; [apply IH|].
        intros E. injection E as <-. now apply decode_part_raises in Ed.
      * destruct (str_eqb (mime_of ch) text_html && truthy (data_of ch));
          [|apply IH].
        destruct (decode_part (from_key [] (data_of ch))) as [text|e'] eqn:Ed;
          simpl; [apply IH|].
        intros E. injection E as <-. now apply decode_part_raises in Ed.
Qed.

Lemma extract_raises (p : payload) :
  forall e, extract p = Raise e -> decoding_error e.
Proof.
  induction p as [mt b hs | mt b children hs IH] using payload_ind;
    intros e; simpl;
    repeat match goal with
           | |- context [if ?c then _ else _] => destruct c
           end;
    try (destruct (decode_part _) as [text|e'] eqn:Ed; simpl;
         [discriminate|];
         intros E; injection E as <-; now apply decode_part_raises in Ed);
    try discriminate.
  now apply walk_raises.
Qed.

(** X6. The extractor makes no request: an exception that it raises is
    never the remote error that the loop of [main] handles. *)
Theorem extractor_never_raises_http_error (p : payload) (e : exn) :
  extract p = Raise e -> forall detail, e <> HttpError detail.
Proof.
  intros H detail. apply extract_raises in H.
  destruct H as [-> | ->]; discriminate.
Qed.

Lemma extractor_never_raises_http_error_witness :
  extract good_then_broken = Raise BinasciiError
  /\ BinasciiError <> HttpError (lit "500").
Proof.
  split; [reflexivity|].
  exact (extractor_never_raises_http_error good_then_broken BinasciiError
           eq_refl (lit "500")).
Defined.

Lemma message_fields_raises (lower : str -> str) (msg : message) (e : exn) :
  message_fields lower msg = Raise e -> decoding_error e.
Proof.
  unfold message_fields.
  destruct (extract (from_key empty_payload (msg_payload msg))) eqn:E;
    simpl; [discriminate|].
  intros E'. injection E' as <-. now apply extract_raises in E.
Qed.

Lemma collect_rows_prefix (W : Type) (lower : str -> str)
      (gmail : gmail_service W) (w : W) (done : list str)
      (outs : list (result (str * str * str))) (w' : W) :
  fetches lower gmail w done outs w' ->
  forall rest rows out,
    collect_rows lower gmail (done ++ rest) rows (State w out) =
    collect_rows lower gmail rest (rows ++ rows_of outs)
                 (State w' (out ++ skipped_lines done outs)).
Proof.
  induction 1 as [w
                 | w mid msg w1 fields tl outs w' Hget Hfields _ IH
                 | w mid e w1 tl outs w' Hget _ IH];
    intros rest rows out.
  - simpl. now rewrite !app_nil_r.
  - simpl. unfold bind at 1. unfold try_except_HttpError.
    unfold bind at 1. rewrite fetch_run, Hget, Hfields.
    destruct fields as [[subject sender] body]. unfold ret at 1.
    rewrite IH. simpl. now rewrite <- app_assoc.
  - simpl. unfold bind at 1. unfold try_except_HttpError.
    unfold bind at 1. rewrite fetch_run, Hget.
    unfold bind at 1. unfold print, ret. simpl.
    rewrite IH. now rewrite <- app_assoc.
Qed.

(** X13. An exception raised while the body of a fetched message is decoded is
    not handled by the loop of [main]: it is the outcome of the run, the
    rows collected so far are dropped, the messages after it are not
    fetched and nothing is handed to the spreadsheet client. *)
Theorem decoding_error_aborts_the_run
        (W : Type) (lower : str -> str) (gmail : gmail_service W)
        (sheets : sheets_service W) (fuel : nat) (w0 w1 w2 w3 w4 : W)
        (out : list str) (labels : option (list label)) (label_id : str)
        (pages : list list_response) (done rest : list str) (mid : str)
        (outs : list (result (str * str * str))) (msg : message) (e : exn) :
  labels_list gmail w0 = (Ok labels, w1) ->
  find_label (from_key [] labels) (lit "internships") = Some label_id ->
  label_id <> [] ->
  serves gmail label_id w1 None pages w2 ->
  length pages <= fuel ->
  concat (map page_ids pages) = done ++ mid :: rest ->
  fetches lower gmail w2 done outs w3 ->
  messages_get gmail mid w3 = (Ok msg, w4) ->
  message_fields lower msg = Raise e ->
  main lower fuel gmail sheets (State w0 out) =
  Some (Raise e,
        State w4 (out ++ [found_line (length (done ++ mid :: rest))]
                      ++ skipped_lines done outs)).
Proof.
  intros Hlab Hfind Hne Hserves Hfuel Hids Hdone Hget Hfields.
  unfold main.
  rewrite (bind_ok (get_label_id gmail (lit "internships")) _ (State w0 out)
             (Some label_id) (State w1 out)).
  2:{ unfold get_label_id, bind, execute, ret. cbn [remote stdout].
      now rewrite Hlab, Hfind. }
  cbn [truthy from_key]. apply nonempty_true in Hne. rewrite Hne.
  cbn [negb].
  rewrite (bind_ok (list_message_ids fuel gmail label_id) _ (State w1 out)
             (done ++ mid :: rest) (State w2 out)).
  2:{ rewrite <- Hids.
      exact (proj1 (pagination_pages W gmail label_id w1 out pages w2 Hserves)
               fuel Hfuel). }
  rewrite (bind_ok (print _) _ (State w2 out) tt
             (State w2 (out ++ [found_line (length (done ++ mid :: rest))])))
    by reflexivity.
  apply bind_raise.
  rewrite (collect_rows_prefix W lower gmail w2 done outs w3 Hdone).
  simpl. unfold bind at 1. unfold try_except_HttpError.
  unfold bind at 1. rewrite fetch_run, Hget, Hfields.
  rewrite <- app_assoc.
  destruct (message_fields_raises lower msg e Hfields) as [-> | ->];
    reflexivity.
Qed.

Lemma decoding_error_aborts_the_run_witness :
  main ascii_lower 1 broken_body_mailbox plain_sheet (State [] []) =
  Some (Raise BinasciiError,
        State [] [found_line 2; skip_line (lit "A") (lit "500")]).
Proof.
  apply (decoding_error_aborts_the_run (list row) ascii_lower
           broken_body_mailbox plain_sheet 1 [] [] [] [] [] [] _ (lit "L1")
           [ListResponse (Some [MessageRef (lit "A"); MessageRef (lit "B")])
                         None]
           [lit "A"] [] (lit "B") [Raise (HttpError (lit "500"))]
           (plain_message "Hello" "YQ") BinasciiError eq_refl eq_refl).
  - discriminate.
  - apply serves_last; reflexivity.
  - constructor.
  - reflexivity.
  - eapply fetches_error; [reflexivity | constructor].
  - reflexivity.
  - reflexivity.
Defined.

(* ===================================================================== *)
(** * Decoding: further properties *)
(* ===================================================================== *)

Section CodecFurther.

Import Codec.
Local Open Scope N_scope.

Ltac Zify.zify_post_hook ::= Z.to_euclidean_division_equations.

Local Opaque N.ltb N.leb N.eqb N.add N.sub N.mul N.div N.modulo N.shiftl.

Ltac split_tests :=
  repeat (match goal with
          | |- context [N.ltb ?a ?b] => destruct (N.ltb_spec a b)
          | |- context [N.leb ?a ?b] => destruct (N.leb_spec a b)
          | |- context [N.eqb ?a ?b] => destruct (N.eqb_spec a b)
          end;
          cbn [negb andb orb]; try (exfalso; lia)).

Ltac arith_form :=
  rewrite ?N.shiftl_mul_pow2;
  change (2 ^ 6) with 64; change (2 ^ 12) with 4096;
  change (2 ^ 18) with 262144.

Lemma scalar_replacement : scalar 0xFFFD.
Proof. unfold scalar. lia. Qed.

Lemma on_error_scalar (h : errors) (rest : str) :
  Forall scalar rest -> Forall scalar (on_error h rest).
Proof.
  intros H. destruct h; [exact H|].
  constructor; [exact scalar_replacement | exact H].
Qed.

(** Whatever the handler, the decoder gives scalar values only. *)
Lemma decode_utf8_scalar_upto (h : errors) (n : nat) :
  forall s : bytes, (length s <= n)%nat -> Forall scalar (decode_utf8 h s).
Proof.
  induction n as [|n IH]; intros s Hlen.
  - destruct s; [constructor | simpl in Hlen; lia].
  - destruct s as [|ch s1]; [constructor|].
    assert (IH1 : Forall scalar (decode_utf8 h s1))
      by (apply IH; simpl in Hlen; lia).
    cbn [decode_utf8]. unfold is_continuation.
    destruct (N.ltb_spec ch 0x80).
    { constructor; [unfold scalar; lia | exact IH1]. }
    destruct (N.ltb_spec ch 0xC2).
    { now apply on_error_scalar. }
    destruct (N.ltb_spec ch 0xE0).
    { destruct s1 as [|ch2 s2]; [apply on_error_scalar; constructor|].
      split_tests; try (now apply on_error_scalar).
      arith_form. constructor; [unfold scalar; lia|].
      apply IH. simpl in Hlen. lia. }
    destruct (N.ltb_spec ch 0xF0).
    { destruct s1 as [|ch2 s2]; [apply on_error_scalar; constructor|].
      assert (IH2 : Forall scalar (decode_utf8 h s2))
        by (apply IH; simpl in Hlen; lia).
      split_tests; try (now apply on_error_scalar);
        (destruct s2 as [|ch3 s3]; [apply on_error_scalar; constructor|]);
        split_tests; try (now apply on_error_scalar);
        arith_form; (constructor; [unfold scalar; lia|]);
        apply IH; simpl in Hlen; lia. }
    destruct (N.ltb_spec ch 0xF5).
    { destruct s1 as [|ch2 s2]; [apply on_error_scalar; constructor|].
      assert (IH2 : Forall scalar (decode_utf8 h s2))
        by (apply IH; simpl in Hlen; lia).
      split_tests; try (now apply on_error_scalar);
        (destruct s2 as [|ch3 s3]; [apply on_error_scalar; constructor|]);
        assert (IH3 : Forall scalar (decode_utf8 h s3))
          by (apply IH; simpl in Hlen; lia);
        split_tests; try (now apply on_error_scalar);
        (destruct s3 as [|ch4 s4]; [apply on_error_scalar; constructor|]);
        split_tests; try (now apply on_error_scalar);
        arith_form; (constructor; [unfold scalar; lia|]);
        apply IH; simpl in Hlen; lia. }
    now apply on_error_scalar.
Qed.

Lemma decode_utf8_scalar (h : errors) (s : bytes) :
  Forall scalar (decode_utf8 h s).
Proof. apply (decode_utf8_scalar_upto h (length s)). lia. Qed.

End CodecFurther.

(** X14. The text that [decode_part] returns is made of Unicode scalar values
    only, whatever the bytes of the body: no surrogate and nothing above
    U+10FFFF; and decoding its UTF-8 encoding gives the same text again. *)
Theorem decode_part_gives_scalar_values (data_b64 t : str) :
  decode_part data_b64 = Ok t ->
  Forall scalar t
  /\ Codec.decode_utf8 Codec.Ignore (Codec.utf8_bytes t) = t.
Proof.
  unfold decode_part. intros H.
  destruct (Codec.encode_utf8 data_b64) as [raw|]; simpl in H; [|discriminate].
  destruct (Codec.urlsafe_b64decode raw) as [bs|]; simpl in H; [|discriminate].
  injection H as H. subst t.
  pose proof (decode_utf8_scalar Codec.Ignore bs) as Hs.
  split; [exact Hs | now apply decode_utf8_bytes].
Qed.

Lemma decode_part_gives_scalar_values_witness :
  Forall scalar [104%N; 233%N].
Proof.
  exact (proj1 (decode_part_gives_scalar_values stray_byte_body
                  [104%N; 233%N] eq_refl)).
Defined.

Section Base64Facts.

Import Codec.
Local Open Scope N_scope.

Lemma encode_char_ascii (c : N) : c < 0x80 -> encode_char c = [c].
Proof.
  intros H. unfold encode_char.
  now rewrite (proj2 (N.ltb_lt c 0x80) H).
Qed.

Lemma utf8_bytes_app (a b : str) :
  utf8_bytes (a ++ b) = utf8_bytes a ++ utf8_bytes b.
Proof. apply flat_map_app. Qed.

Lemma digit_is_ascii (c : N) : urlsafe_digit c <> None -> c < 0x80.
Proof.
  unfold urlsafe_digit. intros H.
  destruct (N.ltb_spec c 0x80) as [Hc|Hc]; [exact Hc|]. exfalso. apply H.
  repeat match goal with
         | |- context [N.leb ?a ?b] => destruct (N.leb_spec a b)
         | |- context [N.eqb ?a ?b] => destruct (N.eqb_spec a b)
         end; cbn [andb orb]; try reflexivity; lia.
Qed.

Lemma ascii_not_surrogate (c : N) : c < 0x80 -> is_surrogate c = false.
Proof.
  intros H. unfold is_surrogate.
  destruct (N.leb_spec 0xD800 c); [lia | reflexivity].
Qed.

(** A byte outside the alphabet that is no pad leaves the base64 decoder
    in the state it was in. *)
Lemma a2b_base64_skips (c : N) (l1 l2 : bytes) :
  urlsafe_digit c = None -> c <> 61 ->
  forall quad_pos leftchar pads bin,
    a2b_base64 (l1 ++ c :: l2) quad_pos leftchar pads bin =
    a2b_base64 (l1 ++ l2) quad_pos leftchar pads bin.
Proof.
  intros Hd Hp. apply N.eqb_neq in Hp.
  induction l1 as [|x l1 IH]; intros quad_pos leftchar pads bin.
  - cbn [app a2b_base64]. now rewrite Hp, Hd.
  - cbn [app a2b_base64]. destruct (x =? 61).
    + destruct (2 <=? quad_pos)%nat; [|apply IH].
      destruct (4 <=? quad_pos + S pads)%nat; [reflexivity | apply IH].
    + destruct (urlsafe_digit x); [|apply IH].
      destruct quad_pos as [|[|[|q]]]; apply IH.
Qed.

End Base64Facts.

(** X15. An ASCII character that belongs to neither base64 alphabet and is not
    the pad (a blank, a line break) is ignored wherever it stands in an
    inline body: the body decodes as it does without it. *)
Theorem decode_part_ignores_foreign_characters (a b : str) (c : N) :
  (c < 0x80)%N ->
  Codec.urlsafe_digit c = None ->
  c <> 61%N ->
  decode_part (a ++ c :: b) = decode_part (a ++ b).
Proof.
  intros Hc Hd Hp. unfold decode_part, Codec.encode_utf8.
  rewrite !existsb_app. cbn [existsb].
  rewrite (ascii_not_surrogate c Hc). cbn [orb].
  destruct (existsb Codec.is_surrogate a || existsb Codec.is_surrogate b);
    [reflexivity|].
  cbn [rbind]. unfold Codec.urlsafe_b64decode.
  rewrite !utf8_bytes_app.
  change (c :: b) with ([c] ++ b). rewrite utf8_bytes_app.
  unfold Codec.utf8_bytes at 2. cbn [flat_map].
  rewrite (encode_char_ascii c Hc). cbn [app].
  now rewrite a2b_base64_skips.
Qed.

Lemma decode_part_ignores_foreign_characters_witness :
  decode_part (lit "aGVs" ++ 10%N :: lit "bG8=") = Ok (lit "hello").
Proof.
  rewrite (decode_part_ignores_foreign_characters (lit "aGVs") (lit "bG8=")
             10%N); [reflexivity | reflexivity | reflexivity | discriminate].
Defined.

Section AlphabetFacts.

Import Codec.
Local Open Scope N_scope.

Lemma to_urlsafe_digit (b : N) : urlsafe_digit (to_urlsafe b) = urlsafe_digit b.
Proof.
  unfold to_urlsafe.
  destruct (N.eqb_spec b 43) as [->|]; [reflexivity|].
  destruct (N.eqb_spec b 47) as [->|]; reflexivity.
Qed.

Lemma to_urlsafe_pad (b : N) : (to_urlsafe b =? 61) = (b =? 61).
Proof.
  unfold to_urlsafe.
  destruct (N.eqb_spec b 43) as [->|]; [reflexivity|].
  destruct (N.eqb_spec b 47) as [->|]; reflexivity.
Qed.

Lemma a2b_base64_to_urlsafe (s : bytes) :
  forall quad_pos leftchar pads bin,
    a2b_base64 (map to_urlsafe s) quad_pos leftchar pads bin =
    a2b_base64 s quad_pos leftchar pads bin.
Proof.
  induction s as [|x s IH]; intros quad_pos leftchar pads bin; [reflexivity|].
  cbn [map a2b_base64]. rewrite to_urlsafe_pad, to_urlsafe_digit.
  destruct (x =? 61).
  - destruct (2 <=? quad_pos)%nat; [|apply IH].
    destruct (4 <=? quad_pos + S pads)%nat; [reflexivity | apply IH].
  - destruct (urlsafe_digit x); [|apply IH].
    destruct quad_pos as [|[|[|q]]]; apply IH.
Qed.

Lemma to_urlsafe_above (c : N) : 0x80 <= c -> to_urlsafe c = c.
Proof.
  intros H. unfold to_urlsafe.
  destruct (N.eqb_spec c 43); [lia|]. destruct (N.eqb_spec c 47); [lia|].
  reflexivity.
Qed.

Lemma high_bit_kept (a x : N) :
  N.testbit a 7 = true -> to_urlsafe (N.lor a x) = N.lor a x.
Proof.
  intros Ha. unfold to_urlsafe.
  assert (Hb : N.testbit (N.lor a x) 7 = true)
    by (rewrite N.lor_spec, Ha; reflexivity).
  destruct (N.eqb_spec (N.lor a x) 43) as [E|_];
    [rewrite E in Hb; discriminate|].
  destruct (N.eqb_spec (N.lor a x) 47) as [E|_];
    [rewrite E in Hb; discriminate|].
  reflexivity.
Qed.

Lemma encode_char_to_urlsafe (c : N) :
  encode_char (to_urlsafe c) = map to_urlsafe (encode_char c).
Proof.
  destruct (N.ltb_spec c 0x80) as [Hc|Hc].
  - assert (Ht : to_urlsafe c < 0x80).
    { unfold to_urlsafe. destruct (N.eqb_spec c 43); [reflexivity|].
      destruct (N.eqb_spec c 47); [reflexivity | exact Hc]. }
    unfold encode_char.
    rewrite (proj2 (N.ltb_lt _ _) Hc), (proj2 (N.ltb_lt _ _) Ht).
    reflexivity.
  - rewrite (to_urlsafe_above c Hc). unfold encode_char.
    rewrite (proj2 (N.ltb_ge _ _) Hc).
    destruct (c <? 0x800); [|destruct (c <? 0x10000)];
      cbn [map]; now rewrite !high_bit_kept.
Qed.

Lemma utf8_bytes_to_urlsafe (s : str) :
  utf8_bytes (map to_urlsafe s) = map to_urlsafe (utf8_bytes s).
Proof.
  induction s as [|c s IH]; [reflexivity|].
  unfold utf8_bytes in *. cbn [map flat_map].
  now rewrite map_app, IH, encode_char_to_urlsafe.
Qed.

Lemma is_surrogate_to_urlsafe (c : N) :
  is_surrogate (to_urlsafe c) = is_surrogate c.
Proof.
  unfold to_urlsafe.
  destruct (N.eqb_spec c 43) as [->|]; [reflexivity|].
  destruct (N.eqb_spec c 47) as [->|]; reflexivity.
Qed.

Lemma existsb_surrogate_to_urlsafe (s : str) :
  existsb is_surrogate (map to_urlsafe s) = existsb is_surrogate s.
Proof.
  induction s as [|c s IH]; [reflexivity|].
  cbn [map existsb]. now rewrite IH, is_surrogate_to_urlsafe.
Qed.

(** The state of the base64 decoder after a run of digits. *)
Lemma a2b_base64_digits (s : bytes) :
  Forall base64_digit s ->
  forall quad_pos leftchar pads bin,
    (quad_pos < 4)%nat ->
    (((quad_pos + length s) mod 4 = 0)%nat ->
     exists out, a2b_base64 s quad_pos leftchar pads bin = Ok out)
    /\ (((quad_pos + length s) mod 4 <> 0)%nat ->
        a2b_base64 s quad_pos leftchar pads bin = Raise BinasciiError).
Proof.
  induction 1 as [|c s Hc _ IH]; intros quad_pos leftchar pads bin Hq.
  - cbn [a2b_base64 length]. rewrite Nat.add_0_r.
    rewrite (Nat.mod_small quad_pos 4 Hq).
    destruct quad_pos; split; intros H; try congruence; eauto.
  - cbn [a2b_base64 length].
    assert (Hpad : (c =? 61) = false).
    { apply N.eqb_neq. intros ->. now apply Hc. }
    rewrite Hpad. unfold base64_digit in Hc.
    destruct (urlsafe_digit c) as [d|]; [|congruence].
    destruct quad_pos as [|[|[|[|q]]]]; try lia.
    + replace (0 + S (length s))%nat with (1 + length s)%nat by lia.
      apply IH. lia.
    + replace (1 + S (length s))%nat with (2 + length s)%nat by lia.
      apply IH. lia.
    + replace (2 + S (length s))%nat with (3 + length s)%nat by lia.
      apply IH. lia.
    + replace ((3 + S (length s)) mod 4)%nat with ((0 + length s) mod 4)%nat.
      * apply IH. lia.
      * replace (3 + S (length s))%nat with (length s + 1 * 4)%nat by lia.
        now rewrite Nat.Div0.mod_add.
Qed.

Lemma utf8_bytes_digits (s : str) :
  Forall base64_digit s -> utf8_bytes s = s /\ existsb is_surrogate s = false.
Proof.
  induction 1 as [|c s Hc _ [IH1 IH2]]; [split; reflexivity|].
  pose proof (digit_is_ascii c Hc) as Ha.
  unfold utf8_bytes in *. cbn [flat_map existsb].
  rewrite (encode_char_ascii c Ha), IH1, IH2, (ascii_not_surrogate c Ha).
  split; reflexivity.
Qed.

End AlphabetFacts.

(** X16. A body in the standard base64 alphabet decodes as the same body in the
    URL-safe one: [+] and [-] are read alike, and so are [/] and [_]. *)
Theorem decode_part_accepts_both_alphabets (data_b64 : str) :
  decode_part (map to_urlsafe data_b64) = decode_part data_b64.
Proof.
  unfold decode_part, Codec.encode_utf8, Codec.urlsafe_b64decode.
  rewrite existsb_surrogate_to_urlsafe, utf8_bytes_to_urlsafe.
  destruct (existsb Codec.is_surrogate data_b64); [reflexivity|].
  cbn [rbind]. now rewrite a2b_base64_to_urlsafe.
Qed.

(** X17. A body made of base64 digits only, with no pad, decodes exactly when
    its length is a multiple of four; otherwise [decode_part] raises
    [binascii.Error]. *)
Theorem unpadded_body_needs_whole_quads (data_b64 : str) :
  Forall base64_digit data_b64 ->
  (length data_b64 mod 4 = 0 -> exists t, decode_part data_b64 = Ok t)
  /\ (length data_b64 mod 4 <> 0 ->
      decode_part data_b64 = Raise BinasciiError).
Proof.
  intros H. destruct (utf8_bytes_digits data_b64 H) as [Hb Hs].
  unfold decode_part, Codec.encode_utf8, Codec.urlsafe_b64decode.
  rewrite Hs, Hb. cbn [rbind].
  destruct (a2b_base64_digits data_b64 H 0 0%N 0 [] ltac:(lia)) as [Hok Herr].
  split; intros Hlen.
  - destruct (Hok Hlen) as [out ->]. cbn [rbind]. eauto.
  - now rewrite (Herr Hlen).
Qed.

Lemma unpadded_body_needs_whole_quads_witness :
  (exists t, decode_part (lit "aGVs") = Ok t)
  /\ decode_part (lit "aGVsbG8") = Raise BinasciiError.
Proof.
  assert (H4 : Forall base64_digit (lit "aGVs"))
    by (repeat constructor; discriminate).
  assert (H7 : Forall base64_digit (lit "aGVsbG8"))
    by (repeat constructor; discriminate).
  split.
  - apply (proj1 (unpadded_body_needs_whole_quads (lit "aGVs") H4)).
    reflexivity.
  - apply (proj2 (unpadded_body_needs_whole_quads (lit "aGVsbG8") H7)).
    discriminate.
Defined.

(* ===================================================================== *)
(** * The matcher *)
(* ===================================================================== *)

Section MatcherFacts.

Variable A : Type.
Variable f : flags.

Lemma match_backref_suffix (g s s' : str) :
  match_backref f g s = Some s' -> exists p, s = p ++ s'.
Proof.
  revert s. induction g as [|x g IH]; intros s; simpl.
  - intros E. injection E as <-. now exists [].
  - destruct s as [|c s0]; [discriminate|].
    destruct (if ignorecase f then _ else _); [|discriminate].
    intros E. destruct (IH _ E) as [p ->]. now exists (c :: p).
Qed.

(** A quantified item hands to the continuation what is left of the text
    after at least [min] characters. *)
Lemma repeat_item_suffix (i : item) (greedy : bool) (s : str) :
  forall min max (k : str -> option A) (a : A),
    repeat_item f i min max greedy s k = Some a ->
    exists p s', s = p ++ s' /\ min <= length p /\ k s' = Some a.
Proof.
  induction s as [|c s IH]; intros min max k a.
  - destruct min as [|min]; simpl; [|discriminate].
    destruct greedy.
    + intros E. exists [], []. auto.
    + destruct (k []) eqn:Ek; [|discriminate].
      intros E. injection E as <-. exists [], []. auto.
  - destruct min as [|min]; simpl.
    + destruct greedy.
      * destruct (may_take max && item_matches f i c).
        -- destruct (repeat_item f i 0 (taken max) true s k) eqn:Er.
           ++ intros E. injection E as <-.
              destruct (IH _ _ _ _ Er) as (p & s' & -> & _ & Hk).
              exists (c :: p), s'. repeat split; [apply Nat.le_0_l | exact Hk].
           ++ intros E. exists [], (c :: s). auto.
        -- intros E. exists [], (c :: s). auto.
      * destruct (k (c :: s)) eqn:Ek.
        -- intros E. injection E as <-. exists [], (c :: s). auto.
        -- destruct (may_take max && item_matches f i c); [|discriminate].
           intros Er.
           destruct (IH _ _ _ _ Er) as (p & s' & -> & _ & Hk).
           exists (c :: p), s'. repeat split; [apply Nat.le_0_l | exact Hk].
    + destruct (may_take max && item_matches f i c); [|discriminate].
      intros Er. destruct (IH _ _ _ _ Er) as (p & s' & -> & Hm & Hk).
      exists (c :: p), s'. repeat split; [simpl; lia | exact Hk].
Qed.

(** A match hands to the continuation what is left of the text. *)
Lemma exec_suffix (r : regex) :
  forall (s : str) (caps : captures) (k : str -> captures -> option A) (a : A),
    exec f r s caps k = Some a ->
    exists p s' caps', s = p ++ s' /\ k s' caps' = Some a.
Proof.
  induction r as [|i|i min max greedy|r1 IH1 r2 IH2|r1 IH1 r2 IH2|n r1 IH1|n];
    intros s caps k a; simpl.
  - intros E. now exists [], s, caps.
  - destruct s as [|c s0]; [discriminate|].
    destruct (item_matches f i c); [|discriminate].
    intros E. now exists [c], s0, caps.
  - intros E. apply repeat_item_suffix in E as (p & s' & -> & _ & Hk).
    now exists p, s', caps.
  - intros E. apply IH1 in E as (p1 & s1 & c1 & -> & E).
    apply IH2 in E as (p2 & s' & c2 & -> & E).
    exists (p1 ++ p2), s', c2. now rewrite <- app_assoc.
  - destruct (exec f r1 s caps k) eqn:E1.
    + intros E. injection E as <-. now apply IH1 in E1.
    + apply IH2.
  - intros E. apply IH1 in E as (p & s' & c' & -> & E).
    now exists p, s', ((n, firstn (length (p ++ s') - length s') (p ++ s')) :: c').
  - destruct (group_text n caps) as [g|]; [|discriminate].
    destruct (match_backref f g s) as [s'|] eqn:Eb; [|discriminate].
    intros E. apply match_backref_suffix in Eb as [p ->].
    now exists p, s', caps.
Qed.

(** A pattern that starts with a literal matches nothing at the end of
    the text, nor before a character that the literal does not stand
    for. *)
Lemma exec_first_chr (r : regex) (x : N) :
  first_chr r = Some x ->
  forall (s : str) (caps : captures) (k : str -> captures -> option A),
    match s with
    | [] => True
    | c :: _ => chr_matches f x c = false
    end ->
    exec f r s caps k = None.
Proof.
  induction r as [|i|i min max greedy|r1 IH1 r2 IH2|r1 IH1 r2 IH2|n r1 IH1|n];
    simpl; try discriminate.
  - destruct i; try discriminate. intros E. injection E as ->.
    intros [|c s] caps k H; [reflexivity|]. simpl. now rewrite H.
  - intros E s caps k H. now apply IH1.
  - intros E s caps k H. now apply IH1.
Qed.

End MatcherFacts.

(** A match that follows a first literal is not empty, and what is
    replaced lies within the text. *)
Lemma match_at_width (f : flags) (r : regex) (b : bool) (s : str) (w : nat) :
  match_at f r b s = Some w -> w <= length s.
Proof.
  unfold match_at. intros E.
  apply exec_suffix in E as (p & s' & c' & -> & E).
  destruct (b && _); [discriminate|]. injection E as <-.
  rewrite length_app. lia.
Qed.

(* ===================================================================== *)
(** * HTML stripper: further properties *)
(* ===================================================================== *)

Lemma chr_matches_lt (f : flags) (c : N) :
  chr_matches f 60 c = true -> c = 60%N.
Proof.
  unfold chr_matches. destruct (ignorecase f).
  - change (tolower 60) with 60%N. change (fixes 60) with (@nil N).
    cbn [existsb]. rewrite orb_false_r. unfold tolower.
    destruct ((65 <=? c)%N && (c <=? 90)%N) eqn:E1.
    + apply andb_true_iff in E1 as [E1 _]. apply N.leb_le in E1.
      intros E. apply N.eqb_eq in E. lia.
    + destruct (c =? 304)%N; [discriminate|].
      destruct (c =? 8490)%N; [discriminate|].
      intros E. now apply N.eqb_eq in E.
  - intros E. now apply N.eqb_eq in E.
Qed.

Lemma chr_matches_not_lt (f : flags) (c : N) :
  c <> 60%N -> chr_matches f 60 c = false.
Proof.
  intros H. destruct (chr_matches f 60 c) eqn:E; [|reflexivity].
  now apply chr_matches_lt in E.
Qed.

(** A pattern that starts with [<] leaves a text without [<] as it is. *)
Lemma sub_without_lt (f : flags) (r : regex) (repl s : str) :
  first_chr r = Some 60%N ->
  ~ In 60%N s ->
  Re.sub f r repl s = s.
Proof.
  intros Hr. unfold Re.sub. induction s as [|c s IH]; intros Hs.
  - simpl. unfold match_at. now rewrite (exec_first_chr _ f r 60 Hr).
  - cbn [sub_scan]. unfold match_at at 1.
    rewrite (exec_first_chr _ f r 60 Hr).
    + f_equal. apply IH. intros H. apply Hs. now right.
    + apply chr_matches_not_lt. intros ->. apply Hs. now left.
Qed.

(** X18. On a text with no [<] the first four rewrites of the stripper change
    nothing: what is returned is the text with the blanks before a
    newline removed, trimmed. *)
Theorem strip_html_without_markup (html : str) :
  ~ In 60%N html ->
  strip_html html = strip (re_sub re_trailing_blank [10%N] html).
Proof.
  intros H. unfold strip_html, re_sub.
  rewrite (sub_without_lt (fst re_script_style) (snd re_script_style) []
             html eq_refl H).
  rewrite (sub_without_lt (fst re_br) (snd re_br) [10%N] html eq_refl H).
  rewrite (sub_without_lt (fst re_close_p) (snd re_close_p) [10%N; 10%N]
             html eq_refl H).
  now rewrite (sub_without_lt (fst re_tag) (snd re_tag) [] html eq_refl H).
Qed.

Lemma strip_html_without_markup_witness :
  strip_html (lit " a > b  " ++ [10%N] ++ lit "c ") =
  lit "a > b" ++ [10%N] ++ lit "c".
Proof.
  rewrite strip_html_without_markup; [reflexivity|].
  vm_compute. intuition discriminate.
Defined.

(** With an empty replacement, what [re.sub] returns is made of
    characters of the text. *)
Lemma sub_scan_empty_in (f : flags) (r : regex) (y : N) (s : str) :
  forall skip, In y (sub_scan f r [] s skip) -> In y s.
Proof.
  induction s as [|c s IH]; intros skip; cbn [sub_scan].
  - destruct skip; [|intros []]. now destruct (match_at f r false []).
  - destruct skip as [|n]; [|intros H; right; now apply (IH n)].
    assert (Hcons : In y (c :: sub_scan f r [] s 0) -> In y (c :: s)).
    { intros [E | H]; [now left | right; now apply (IH 0)]. }
    destruct (match_at f r false (c :: s)) as [[|n]|]; cbn [app].
    + destruct (match_at f r true (c :: s)) as [[|n]|]; cbn [app];
        try exact Hcons.
      intros H. right. now apply (IH n).
    + intros H. right. now apply (IH n).
    + exact Hcons.
Qed.

(** The lazy [.*?>] finds the first [>]. *)
Lemma lazy_until_gt (s : str) (k : str -> option nat) :
  In 62%N s ->
  (forall t, length t < length s -> k t <> None) ->
  repeat_item (Flags false true) Dot 0 None false s
    (fun s' =>
       match s' with
       | c :: t => if item_matches (Flags false true) (Chr 62) c
                   then k t else None
       | [] => None
       end) <> None.
Proof.
  induction s as [|c s IH]; intros Hin Hk; [contradiction|].
  cbn [repeat_item].
  destruct (item_matches (Flags false true) (Chr 62) c) eqn:Ec.
  - destruct (k s) eqn:Ek; [discriminate|].
    exfalso. apply (Hk s); [simpl; lia | exact Ek].
  - cbn [may_take item_matches dotall orb andb taken].
    apply IH.
    + destruct Hin as [-> | Hin]; [now vm_compute in Ec | exact Hin].
    + intros t Ht. apply Hk. simpl. lia.
Qed.

Lemma tag_match_none (s : str) :
  match_at (fst re_tag) (snd re_tag) false (60%N :: s) = None ->
  ~ In 62%N s.
Proof.
  intros E Hin. revert E. unfold match_at. cbn [fst snd re_tag literal exec].
  change (N_of_ascii "<") with 60%N. change (N_of_ascii ">") with 62%N.
  cbn [item_matches chr_matches ignorecase N.eqb Pos.eqb].
  apply lazy_until_gt with
    (k := fun t => Some (length (60%N :: s) - length t)); [exact Hin|].
  discriminate.
Qed.

Lemma tag_match_width (b : bool) (s : str) :
  match_at (fst re_tag) (snd re_tag) b s <> Some 0.
Proof.
  unfold match_at. cbn [fst snd re_tag literal exec].
  destruct s as [|c s]; [discriminate|].
  destruct (item_matches _ _ c); [|discriminate].
  intros E. apply repeat_item_suffix in E as (p & s' & Hs & _ & E).
  destruct s' as [|c0 t]; [discriminate|].
  destruct (item_matches _ _ c0); [|discriminate].
  destruct (b && _); [discriminate|]. injection E as E.
  subst s. pose proof (length_app p (c0 :: t)) as Hl. cbn [length] in Hl.
  destruct (length t) as [|l]; [discriminate | lia].
Qed.

Lemma tag_match_head (b : bool) (c : N) (s : str) :
  c <> 60%N -> match_at (fst re_tag) (snd re_tag) b (c :: s) = None.
Proof.
  intros H. unfold match_at.
  apply (exec_first_chr _ (fst re_tag) (snd re_tag) 60 eq_refl).
  now apply chr_matches_not_lt.
Qed.

Lemma sub_tag_tagless (s : str) :
  forall skip, tagless (sub_scan (fst re_tag) (snd re_tag) [] s skip).
Proof.
  induction s as [|c s IH]; intros skip; cbn [sub_scan].
  - destruct skip; [|exact I].
    now destruct (match_at (fst re_tag) (snd re_tag) false []).
  - destruct skip as [|n]; [|apply IH].
    destruct (match_at (fst re_tag) (snd re_tag) false (c :: s))
      as [[|n]|] eqn:E.
    + now apply tag_match_width in E.
    + apply IH.
    + cbn [tagless]. split; [|apply IH].
      intros -> Hin. apply sub_scan_empty_in in Hin.
      now apply tag_match_none in E.
Qed.

Lemma subseq_in {A : Type} (l1 l2 : list A) (y : A) :
  subseq l1 l2 -> In y l1 -> In y l2.
Proof.
  induction 1 as [|x l1 l2 _ IH|x l1 l2 _ IH]; intros H.
  - exact H.
  - destruct H as [-> | H]; [now left | right; now apply IH].
  - right. now apply IH.
Qed.

Lemma tagless_subseq (l1 l2 : str) :
  subseq l1 l2 -> tagless l2 -> tagless l1.
Proof.
  induction 1 as [|x l1 l2 Hs IH|x l1 l2 Hs IH]; cbn [tagless].
  - trivial.
  - intros [Hx Ht]. split; [|now apply IH].
    intros E Hin. apply (Hx E). now apply (subseq_in l1 l2).
  - intros [_ Ht]. now apply IH.
Qed.

Lemma lstrip_subseq (s : str) : subseq (lstrip s) s.
Proof.
  induction s as [|c s IH]; simpl; [constructor|].
  destruct (isspace c); [now apply subseq_drop | apply subseq_refl].
Qed.

Lemma rstrip_subseq (s : str) : subseq (rstrip s) s.
Proof.
  induction s as [|c s IH]; simpl; [constructor|].
  destruct (rstrip s) as [|x r].
  - destruct (isspace c); [apply subseq_nil_l|].
    apply subseq_keep, subseq_nil_l.
  - now apply subseq_keep.
Qed.

Lemma item_blank (c : N) :
  item_matches (fst re_trailing_blank) (OneOf [32%N; 9%N]) c = is_blank c.
Proof.
  unfold is_blank. cbn. now rewrite orb_false_r.
Qed.

Lemma item_newline (c : N) :
  item_matches (fst re_trailing_blank) (Chr 10) c = N.eqb c 10.
Proof. reflexivity. Qed.

Lemma blank_is_not_newline (c : N) : is_blank c = true -> N.eqb c 10 = false.
Proof.
  unfold is_blank. intros H. apply orb_true_iff in H as [H | H];
    apply N.eqb_eq in H; now subst c.
Qed.

(** A match of the blank pattern ends on a newline of the text. *)
Lemma blank_match_last (b : bool) (s : str) (w : nat) :
  match_at (fst re_trailing_blank) (snd re_trailing_blank) b s = Some w ->
  exists n, w = S n /\ nth n s 0%N = 10%N.
Proof.
  unfold match_at. cbn [fst snd re_trailing_blank exec].
  intros E. apply repeat_item_suffix in E as (p & s' & Hs & _ & E).
  destruct s' as [|c0 t]; [discriminate|].
  rewrite item_newline in E.
  destruct (N.eqb_spec c0 10) as [->|]; [|discriminate].
  destruct (b && _); [discriminate|]. injection E as E.
  exists (length p). subst s. split.
  - pose proof (length_app p (10%N :: t)) as Hl. cbn [length] in Hl. lia.
  - now rewrite nth_middle.
Qed.

(** What the rewrite of the blanks gives is the text with characters left
    out. *)
Lemma sub_blank_subseq (s : str) :
  subseq (sub_scan (fst re_trailing_blank) (snd re_trailing_blank)
                   [10%N] s 0) s
  /\ forall n,
      nth n s 0%N = 10%N ->
      subseq (10%N :: sub_scan (fst re_trailing_blank)
                               (snd re_trailing_blank) [10%N] s (S n)) s.
Proof.
  induction s as [|c s [IH0 IHS]].
  - split.
    + cbn [sub_scan].
      destruct (match_at _ _ false []) as [w|] eqn:E; [|constructor].
      apply blank_match_last in E as (n & _ & E). now destruct n.
    + intros n E. now destruct n.
  - assert (Hskip : forall n,
               nth n (c :: s) 0%N = 10%N ->
               subseq (10%N :: sub_scan (fst re_trailing_blank)
                                 (snd re_trailing_blank) [10%N] s n)
                      (c :: s)).
    { intros [|m] E; cbn [nth] in E.
      - subst c. now apply subseq_keep.
      - apply subseq_drop. now apply IHS. }
    split; [|intros n E; exact (Hskip n E)].
    cbn [sub_scan].
    destruct (match_at _ _ false (c :: s)) as [[|n]|] eqn:E.
    + apply blank_match_last in E as (n & E & _). discriminate.
    + apply blank_match_last in E as (m & E & Hm). injection E as <-.
      exact (Hskip n Hm).
    + now apply subseq_keep.
Qed.

(** X19. Whatever the markup, no tag is left in what the stripper returns: no
    [<] of the result has a [>] anywhere after it. *)
Theorem strip_html_leaves_no_tag (html : str) :
  tagless (strip_html html).
Proof.
  unfold strip_html, strip, re_sub.
  eapply tagless_subseq; [apply rstrip_subseq|].
  eapply tagless_subseq; [apply lstrip_subseq|].
  eapply tagless_subseq; [apply sub_blank_subseq|].
  apply sub_tag_tagless.
Qed.

(** The greedy run of blanks, with the newline that has to follow: it
    matches where blanks and then a newline stand, and only there. *)
Lemma greedy_blanks_sound (k : str -> option nat) (s : str) (w : nat) :
  repeat_item (fst re_trailing_blank) (OneOf [32%N; 9%N]) 0 None true s
    (fun s' =>
       match s' with
       | c :: t => if item_matches (fst re_trailing_blank) (Chr 10) c
                   then k t else None
       | [] => None
       end) = Some w ->
  blanks_then_newline s = true.
Proof.
  revert w. induction s as [|c s IH]; intros w; cbn [repeat_item];
    [discriminate|].
  rewrite item_blank, item_newline. cbn [may_take andb taken].
  cbn [blanks_then_newline].
  destruct (N.eqb c 10) eqn:Ec; [reflexivity|].
  destruct (is_blank c).
  - destruct (repeat_item _ _ 0 None true s _) as [n|] eqn:E; [|discriminate].
    intros _. now apply (IH n).
  - discriminate.
Qed.

Lemma greedy_blanks_complete (k : str -> option nat) (s : str) :
  blanks_then_newline s = true ->
  (forall t, length t < length s -> k t <> None) ->
  repeat_item (fst re_trailing_blank) (OneOf [32%N; 9%N]) 0 None true s
    (fun s' =>
       match s' with
       | c :: t => if item_matches (fst re_trailing_blank) (Chr 10) c
                   then k t else None
       | [] => None
       end) <> None.
Proof.
  induction s as [|c s IH]; cbn [blanks_then_newline repeat_item];
    [discriminate|].
  rewrite item_blank, item_newline. cbn [may_take andb taken].
  intros Hs Hk. destruct (N.eqb c 10) eqn:Ec.
  - assert (Hb : is_blank c = false).
    { destruct (is_blank c) eqn:Eb; [|reflexivity].
      apply blank_is_not_newline in Eb. congruence. }
    rewrite Hb. apply Hk. simpl. lia.
  - destruct (is_blank c); [|discriminate].
    assert (Hrec := IH Hs (fun t Ht => Hk t (Nat.lt_lt_succ_r _ _ Ht))).
    destruct (repeat_item _ _ 0 None true s _); [discriminate | contradiction].
Qed.

Lemma blank_match_sound (b : bool) (s : str) (w : nat) :
  match_at (fst re_trailing_blank) (snd re_trailing_blank) b s = Some w ->
  exists c s', s = c :: s' /\ is_blank c = true
               /\ blanks_then_newline s' = true.
Proof.
  unfold match_at. cbn [fst snd re_trailing_blank exec].
  destruct s as [|c s]; cbn [repeat_item]; [discriminate|].
  change (Flags false false) with (fst re_trailing_blank).
  rewrite item_blank. cbn [may_take andb taken].
  destruct (is_blank c) eqn:Ec; [|discriminate].
  intros E. exists c, s. split; [reflexivity|]. split; [exact Ec|].
  exact (greedy_blanks_sound _ s w E).
Qed.

Lemma blank_match_complete (c : N) (s : str) :
  is_blank c = true -> blanks_then_newline s = true ->
  match_at (fst re_trailing_blank) (snd re_trailing_blank) false (c :: s)
  <> None.
Proof.
  intros Hc Hs. unfold match_at. cbn [fst snd re_trailing_blank exec].
  cbn [repeat_item].
  change (Flags false false) with (fst re_trailing_blank).
  rewrite item_blank, Hc. cbn [may_take andb taken].
  apply greedy_blanks_complete with
    (k := fun t => if false && Nat.eqb (length t) (length (c :: s))
                   then None else Some (length (c :: s) - length t));
    [exact Hs | discriminate].
Qed.

Lemma sub_blank_tidy (s : str) :
  forall skip,
    tidy_lines (sub_scan (fst re_trailing_blank) (snd re_trailing_blank)
                         [10%N] s skip).
Proof.
  induction s as [|c s IH]; intros skip; cbn [sub_scan].
  - destruct skip; [|exact I].
    destruct (match_at _ _ false []); cbn; auto.
  - destruct skip as [|n]; [|apply IH].
    destruct (match_at _ _ false (c :: s)) as [[|n]|] eqn:E.
    + apply blank_match_last in E as (n & E & _). discriminate.
    + cbn [app tidy_lines]. split; [|apply IH].
      destruct (sub_scan _ _ _ s n); [exact I | discriminate].
    + cbn [tidy_lines]. split; [|apply IH].
      destruct s as [|d s']; cbn [sub_scan].
      * destruct (match_at _ _ false []) as [w|] eqn:E0; [|exact I].
        apply blank_match_sound in E0 as (? & ? & ? & _). discriminate.
      * destruct (match_at _ _ false (d :: s')) as [[|n]|] eqn:Ed.
        -- apply blank_match_last in Ed as (n & Ed & _). discriminate.
        -- intros Hc _. revert E. apply blank_match_complete; [exact Hc|].
           apply blank_match_sound in Ed as (d0 & s0 & Hd & Hb & Hs).
           injection Hd as <- <-. cbn [blanks_then_newline].
           now rewrite (blank_is_not_newline d Hb), Hb.
        -- intros Hc ->. revert E. now apply blank_match_complete.
Qed.

Lemma tidy_lines_tail (c : N) (s : str) : tidy_lines (c :: s) -> tidy_lines s.
Proof. cbn [tidy_lines]. tauto. Qed.

Lemma lstrip_tidy (s : str) : tidy_lines s -> tidy_lines (lstrip s).
Proof.
  induction s as [|c s IH]; [trivial|]. intros H. simpl.
  destruct (isspace c); [|exact H]. apply IH. now apply tidy_lines_tail in H.
Qed.

Lemma rstrip_tidy (s : str) : tidy_lines s -> tidy_lines (rstrip s).
Proof.
  induction s as [|c s IH]; [trivial|]. intros H.
  pose proof (IH (tidy_lines_tail c s H)) as IHs.
  simpl. destruct (rstrip s) as [|x r] eqn:E.
  - destruct (isspace c); cbn; auto.
  - cbn [tidy_lines] in *. split; [|exact IHs].
    destruct s as [|d s']; [discriminate|].
    destruct H as [H _]. simpl in E.
    destruct (rstrip s'); [destruct (isspace d); [discriminate|]|];
      injection E as <- _; exact H.
Qed.

(** X20. In what the stripper returns no space or tab stands right before a
    newline, and none stands at either end: no line of the result ends
    with a blank. *)
Theorem strip_html_lines_end_clean (html : str) :
  tidy_lines (strip_html html)
  /\ strip (strip_html html) = strip_html html.
Proof.
  split; [|apply strip_html_stripped].
  unfold strip_html, strip, re_sub.
  apply rstrip_tidy, lstrip_tidy, sub_blank_tidy.
Qed.

(* ===================================================================== *)
(** * Header lookup: further properties *)
(* ===================================================================== *)

Lemma get_header_same_lower (lower : str -> str) (hs : list header)
      (n1 n2 : str) :
  lower n1 = lower n2 ->
  get_header lower hs n1 = get_header lower hs n2.
Proof.
  intros E. induction hs as [|h hs IH]; [reflexivity|].
  simpl. unfold header_matches. now rewrite E, IH.
Qed.

Lemma get_header_recase (lower g : str -> str) (hs : list header)
      (name : str) :
  (forall s, lower (g s) = lower s) ->
  get_header lower
    (map (fun h => Header (option_map g (h_name h)) (h_value h)) hs) name
  = get_header lower hs name.
Proof.
  intros Hg. induction hs as [|h hs IH]; [reflexivity|].
  cbn [map get_header]. rewrite IH. unfold header_matches.
  cbn [h_name h_value].
  destruct (h_name h) as [n|]; cbn [option_map from_key];
    [now rewrite Hg | reflexivity].
Qed.

(** X21. The lookup does not see the case of names, on either side: two
    looked-up names with the same lower-case form give the same result on
    every header list, and so does a header list whose names are written
    in another case. *)
Theorem get_header_ignores_case (lower : str -> str) (hs : list header) :
  (forall n1 n2,
      lower n1 = lower n2 ->
      get_header lower hs n1 = get_header lower hs n2)
  /\ (forall g name,
         (forall s, lower (g s) = lower s) ->
         get_header lower
           (map (fun h => Header (option_map g (h_name h)) (h_value h)) hs)
           name
         = get_header lower hs name).
Proof.
  split.
  - intros n1 n2. apply get_header_same_lower.
  - intros g name. apply get_header_recase.
Qed.

Lemma ascii_lower_idempotent (s : str) :
  ascii_lower (ascii_lower s) = ascii_lower s.
Proof.
  unfold ascii_lower. rewrite map_map. apply map_ext. intros c.
  destruct ((65 <=? c) && (c <=? 90))%N eqn:E; [|now rewrite E].
  apply andb_true_iff in E as [E1 E2]. apply N.leb_le in E1, E2.
  destruct (N.leb_spec 65 (c + 32)); destruct (N.leb_spec (c + 32) 90);
    cbn [andb]; try reflexivity; lia.
Qed.

Lemma get_header_ignores_case_witness :
  get_header ascii_lower duplicate_headers (lit "SuBjEcT") = lit "first"
  /\ get_header ascii_lower
       (map (fun h => Header (option_map ascii_lower (h_name h)) (h_value h))
            duplicate_headers) (lit "Subject") = lit "first".
Proof.
  split.
  - rewrite (proj1 (get_header_ignores_case ascii_lower duplicate_headers)
               (lit "SuBjEcT") (lit "subject") eq_refl).
    reflexivity.
  - rewrite (proj2 (get_header_ignores_case ascii_lower duplicate_headers)
               ascii_lower (lit "Subject") ascii_lower_idempotent).
    reflexivity.
Defined.
